(** * OpenAIEmbeddingFunction: configuration validation and the embedding pipeline

    A shallow embedding of [embedding-function.ts]: the field validators built
    from fp-ts [Either] and [Option], [validateConfig], [validateConfigUpdate],
    the constructor, [buildFromConfig], [getConfig] and the batching loop of
    [generate], followed by the properties proved about them. *)

From Stdlib Require Import ZArith QArith Lia List.
From Stdlib Require Import DecimalString.
From stdpp Require Import gmap strings list fin_maps.

Open Scope string_scope.
Open Scope list_scope.

(** ** JavaScript values *)

(** A JavaScript [number].  Finite doubles are idealised as exact rationals:
    there is no rounding.  The two readings agree wherever the operands and
    the result of an operation are doubles, as they are for the whole-number
    indices and sizes below 2^53 and for a fraction such as 1.5; a sum that a
    double would round (as with a step of 0.1) is outside what the embedding
    describes. *)
Inductive number : Type :=
  | NaN
  | NegInfinity
  | Fin (q : Q)
  | PosInfinity.

(** The values a raw configuration (a [Record<string, any>]) can hold.
    [JFun] carries a splitter of the declared shape [(text: string) => string[]];
    [JObj] stands for any other value (a non-callable object, a symbol, a
    bigint): such a value is present, and is neither a string, a number nor a
    function, which is all this program ever asks of it. *)
Inductive JsValue : Type :=
  | JUndefined
  | JNull
  | JBool (b : bool)
  | JNum (x : number)
  | JStr (s : string)
  | JFun (f : string -> list string)
  | JObj.

(** [typeof v] *)
Definition typeof (v : JsValue) : string :=
  match v with
  | JUndefined => "undefined"
  | JNull => "object"
  | JBool _ => "boolean"
  | JNum _ => "number"
  | JStr _ => "string"
  | JFun _ => "function"
  | JObj => "object"
  end.

(** [v == null]: true of [undefined] and [null] only. *)
Definition isNullish (v : JsValue) : bool :=
  match v with
  | JUndefined | JNull => true
  | _ => false
  end.

(** A plain object used as a record: property name to value.  Reading a
    property that is not there gives [undefined]. *)
Abbreviation JsObject := (gmap string JsValue).

Definition prop (o : JsObject) (k : string) : JsValue :=
  default JUndefined (o !! k).

(** Thrown values: [new Error(msg)] and the engine's [TypeError] and
    [RangeError]. *)
Inductive JsError : Type :=
  | Error (message : string)
  | TypeError (message : string)
  | RangeError (message : string).

Definition message (e : JsError) : string :=
  match e with Error m | TypeError m | RangeError m => m end.

(** ** Number operations *)

Module Num.

Definition zero : number := Fin 0.

Definition of_nat (n : nat) : number := Fin (inject_Z (Z.of_nat n)).

Definition Qltb (a b : Q) : bool :=
  (Qnum a * Zpos (Qden b) <? Qnum b * Zpos (Qden a))%Z.

(** [a < b] *)
Definition ltb (a b : number) : bool :=
  match a, b with
  | NaN, _ | _, NaN => false
  | _, NegInfinity => false
  | NegInfinity, _ => true
  | PosInfinity, _ => false
  | Fin _, PosInfinity => true
  | Fin p, Fin q => Qltb p q
  end.

(** [a > b] *)
Definition gtb (a b : number) : bool := ltb b a.

(** [a >= b] *)
Definition geb (a b : number) : bool :=
  match a, b with
  | NaN, _ | _, NaN => false
  | _, _ => negb (ltb a b)
  end.

(** [a + b] *)
Definition add (a b : number) : number :=
  match a, b with
  | NaN, _ | _, NaN => NaN
  | PosInfinity, NegInfinity | NegInfinity, PosInfinity => NaN
  | PosInfinity, _ | _, PosInfinity => PosInfinity
  | NegInfinity, _ | _, NegInfinity => NegInfinity
  | Fin p, Fin q => Fin (p + q)
  end.

(** The result of [ToIntegerOrInfinity]. *)
Inductive integer : Type :=
  | IMinusInf
  | IInt (z : Z)
  | IPlusInf.

(** [ToIntegerOrInfinity]: [NaN] becomes 0, a finite number is truncated
    towards zero. *)
Definition toIntegerOrInfinity (a : number) : integer :=
  match a with
  | NaN => IInt 0
  | NegInfinity => IMinusInf
  | PosInfinity => IPlusInf
  | Fin q => IInt (Z.quot (Qnum q) (Zpos (Qden q)))
  end.

(** The clamping [Array.prototype.slice] applies to each of its two
    arguments, for an array of length [len]. *)
Definition clampIndex (len : nat) (r : integer) : nat :=
  match r with
  | IMinusInf => 0%nat
  | IPlusInf => len
  | IInt z =>
      if (z <? 0)%Z then Z.to_nat (Z.max (Z.of_nat len + z) 0)
      else Z.to_nat (Z.min z (Z.of_nat len))
  end.

End Num.

(** [arr.slice(start, end)] *)
Definition slice {A} (arr : list A) (start end_ : number) : list A :=
  let len := length arr in
  let k := Num.clampIndex len (Num.toIntegerOrInfinity start) in
  let final := Num.clampIndex len (Num.toIntegerOrInfinity end_) in
  take (final - k) (drop k arr).

(** ** fp-ts: Either, Option and sequenceS *)

Inductive Either (E A : Type) : Type :=
  | Left (e : E)
  | Right (a : A).
Arguments Left {E A} e.
Arguments Right {E A} a.

Module E.

Definition isLeft {E A} (ma : Either E A) : bool :=
  match ma with Left _ => true | Right _ => false end.

(** [E.fromNullable(e)(a)]: [a == null ? left(e) : right(a)] *)
Definition fromNullable {E} (e : E) (a : JsValue) : Either E JsValue :=
  if isNullish a then Left e else Right a.

(** [E.fromPredicate(predicate, onFalse)(a)] *)
Definition fromPredicate {E A} (predicate : A -> bool) (onFalse : A -> E)
    (a : A) : Either E A :=
  if predicate a then Right a else Left (onFalse a).

(** [E.chain(f)(ma)] *)
Definition chain {E A B} (f : A -> Either E B) (ma : Either E A) : Either E B :=
  match ma with Left e => Left e | Right a => f a end.

(** [E.map] *)
Definition map {E A B} (f : A -> B) (fa : Either E A) : Either E B :=
  match fa with Left e => Left e | Right a => Right (f a) end.

(** [E.Apply.ap(fab, fa)]:
    [isLeft(fab) ? fab : isLeft(fa) ? fa : right(fab.right(fa.right))] *)
Definition ap {E A B} (fab : Either E (A -> B)) (fa : Either E A) : Either E B :=
  match fab with
  | Left e => Left e
  | Right f => match fa with Left e => Left e | Right a => Right (f a) end
  end.

(** [E.match(onLeft, onRight)(ma)] *)
Definition match_ {E A B} (onLeft : E -> B) (onRight : A -> B)
    (ma : Either E A) : B :=
  match ma with Left e => onLeft e | Right a => onRight a end.

End E.

Module O.

(** [O.fromNullable(a)]: [a == null ? none : some(a)] *)
Definition fromNullable (a : JsValue) : option JsValue :=
  if isNullish a then None else Some a.

(** [O.match(onNone, onSome)(ma)] *)
Definition match_ {A B} (onNone : unit -> B) (onSome : A -> B)
    (ma : option A) : B :=
  match ma with None => onNone tt | Some a => onSome a end.

End O.

(** A record of [Either]s as [sequenceS] sees it: its own keys in
    [Object.keys] order, which for an object literal with string keys is the
    order in which the literal lists them. *)
Definition Struct (A : Type) : Type := list (string * A).

(** [sequenceS(E.Apply)(r)].  fp-ts maps the curried record constructor over
    the first key's value and then applies [ap] once per remaining key, from
    left to right; the partially applied constructor is represented by the
    entries collected so far.  (fp-ts types rule out the empty record.) *)
Definition sequenceS {Err A} (r : Struct (Either Err A)) : Either Err (Struct A) :=
  match r with
  | [] => Right []
  | (k0, fa0) :: rest =>
      fold_left
        (fun (fr : Either Err (Struct A)) '(k, fa) =>
           E.ap (E.map (fun (acc : Struct A) a => acc ++ [(k, a)]) fr) fa)
        rest
        (E.map (fun a => [(k0, a)]) fa0)
  end.

(** ** Predicates and field validators *)

(** [typeof v === "string"] *)
Definition isString (v : JsValue) : bool := String.eqb (typeof v) "string".

(** [typeof v === "number" && v > 0]; the comparison is reached for numbers
    only. *)
Definition isPositiveNumber (v : JsValue) : bool :=
  String.eqb (typeof v) "number" &&
  match v with JNum x => Num.gtb x Num.zero | _ => false end.

(** [typeof v === "number" && v >= 0] *)
Definition isNonNegativeNumber (v : JsValue) : bool :=
  String.eqb (typeof v) "number" &&
  match v with JNum x => Num.geb x Num.zero | _ => false end.

(** [typeof v === "function"] *)
Definition isFunction (v : JsValue) : bool := String.eqb (typeof v) "function".

Definition Validation : Type := Either JsError JsValue.

(** Left if the value is undefined/null or fails the predicate. *)
Definition validateRequiredField (predicate : JsValue -> bool) (name : string)
    (value : JsValue) : Validation :=
  E.chain
    (fun v => E.fromPredicate predicate (fun _ => Error (name +:+ " is invalid")) v)
    (E.fromNullable (Error (name +:+ " is required")) value).

(** Right(value) if the value is undefined/null; Left if it is defined but
    fails the predicate. *)
Definition validateOptionalField (predicate : JsValue -> bool) (name : string)
    (value : JsValue) : Validation :=
  O.match_
    (fun _ => Right value)
    (fun val => E.fromPredicate predicate (fun _ => Error (name +:+ " is invalid")) val)
    (O.fromNullable value).

(** Left if a value is supplied at all. *)
Definition validateFieldUpdate (name : string) (value : JsValue) : Validation :=
  O.match_
    (fun _ => Right value)
    (fun _ => Left (Error ("Updating " +:+ name +:+ " is not allowed")))
    (O.fromNullable value).

(** ** The object store and the method monad *)

(** An [OpenAIEmbeddingFunction] object: its [name] and its private [config]
    ([None] while the field is unset).  The field holds the very object the
    caller passed to the constructor, not a copy: the caller keeps access to
    it and can change it afterwards (see [assign] and [unset]). *)
Record Instance : Type := mkInstance {
  name : string;
  config : option JsObject;
}.

(** The request [generate] posts, and the reply of the remote service.  Only
    replies whose body has the documented shape (a [data] array of objects
    with an [embedding]) are modelled; [data] lists those embeddings. *)
Record Request : Type := mkRequest {
  url : JsValue;
  model : JsValue;
  input : list string;
  encoding_format : JsValue;
}.

Definition Embedding : Type := list number.

Record Response : Type := mkResponse {
  status : nat;
  statusText : string;
  data : list Embedding;
}.

(** [response.ok]: the status is in the range 200-299. *)
Definition ok (r : Response) : bool :=
  (200 <=? status r)%nat && (status r <=? 299)%nat.

(** What awaiting [fetch] yields: a rejection (network failure, bad URL) or a
    response. *)
Inductive FetchResult : Type :=
  | Rejected (e : JsError)
  | Responded (r : Response).

(** The remote service: its answer to a request may depend on the requests it
    has received before. *)
Definition Service : Type := list Request -> Request -> FetchResult.

(** The world a method runs in: the objects allocated so far (an object's
    reference is its index), the requests sent to the service, oldest first,
    and the largest number of arguments the engine accepts in one call (the
    bound differs from engine to engine; a call that spreads a longer array
    throws a [RangeError]). *)
Record World : Type := mkWorld {
  heap : list Instance;
  sent : list Request;
  maxArguments : N;
}.

(** How a call ends.  [Pending] is a promise that has not settled when the
    step budget of the batching loop is used up; [Unmodelled] marks the one
    place where the embedding stops: adding a string, function or object to
    the loop index (a configuration that passes validation has no such
    [chunkSize]). *)
Inductive Completion (A : Type) : Type :=
  | Return (a : A)
  | Throw (e : JsError)
  | Pending
  | Unmodelled.
Arguments Return {A} a.
Arguments Throw {A} e.
Arguments Pending {A}.
Arguments Unmodelled {A}.

Definition M (A : Type) : Type := World -> Completion A * World.

Definition ret {A} (a : A) : M A := fun w => (Return a, w).

Definition throw {A} (e : JsError) : M A := fun w => (Throw e, w).

Definition bind {A B} (m : M A) (k : A -> M B) : M B :=
  fun w =>
    match m w with
    | (Return a, w') => k a w'
    | (Throw e, w') => (Throw e, w')
    | (Pending, w') => (Pending, w')
    | (Unmodelled, w') => (Unmodelled, w')
    end.

Notation "'let*' x ':=' m 'in' k" := (bind m (fun x => k))
  (at level 10, x name, m at level 100, k at level 200, only parsing).
Notation "'do' m 'then' k" := (bind m (fun _ => k))
  (at level 10, m at level 100, k at level 200, only parsing).

(** Allocate a new object and return its reference. *)
Definition alloc (o : Instance) : M nat :=
  fun w =>
    (Return (length (heap w)),
     mkWorld (heap w ++ [o]) (sent w) (maxArguments w)).

(** [this.config] *)
Definition readConfig (this : nat) : M (option JsObject) :=
  fun w => (Return (o ← heap w !! this; config o), w).

(** [this.config = c]: the object keeps the very object [c] it was given,
    not a copy; what its owner does to it afterwards is [assign] and [unset]
    below, which act on the configuration the object holds. *)
Definition writeConfig (this : nat) (c : JsObject) : M unit :=
  fun w =>
    (Return tt,
     mkWorld (alter (fun o => mkInstance (name o) (Some c)) this (heap w))
       (sent w) (maxArguments w)).

(** [this.config.<key>]: a [TypeError] while [this.config] is unset. *)
Definition readConfigProp (this : nat) (key : string) : M JsValue :=
  let* c := readConfig this in
  match c with
  | None =>
      throw (TypeError
        ("Cannot read properties of undefined (reading '" +:+ key +:+ "')"))
  | Some c => ret (prop c key)
  end.

(** [await fetch(...)]: the request goes out and the service answers. *)
Definition fetch (svc : Service) (req : Request) : M Response :=
  fun w =>
    let w' := mkWorld (heap w) (sent w ++ [req]) (maxArguments w) in
    match svc (sent w) req with
    | Rejected e => (Throw e, w')
    | Responded r => (Return r, w')
    end.

(** ** The class *)

(** The record [seq] that [validateConfig] builds: one validation per key, in
    the order of the object literal. *)
Definition validateConfig_seq (config : JsObject) : Struct Validation :=
  [ ("aiServiceUrl", validateRequiredField isString "aiServiceUrl" (prop config "aiServiceUrl"));
    ("model", validateRequiredField isString "model" (prop config "model"));
    ("encodingFormat", validateOptionalField isString "encodingFormat" (prop config "encodingFormat"));
    ("chunkSize", validateOptionalField isPositiveNumber "chunkSize" (prop config "chunkSize"));
    ("chunkOverlap", validateOptionalField isNonNegativeNumber "chunkOverlap" (prop config "chunkOverlap"));
    ("chunkStrategy", validateOptionalField isString "chunkStrategy" (prop config "chunkStrategy"));
    ("splitter", validateOptionalField isFunction "splitter" (prop config "splitter")) ].

Definition validateConfig (this : nat) (config : JsObject) : M unit :=
  let seq := validateConfig_seq config in
  E.match_ (fun err => throw err) (fun _ => ret tt) (sequenceS seq).

(** The record [seq] that [validateConfigUpdate] builds, again in the order of
    its object literal. *)
Definition validateConfigUpdate_seq (newConfig : JsObject) : Struct Validation :=
  [ ("model", validateFieldUpdate "model" (prop newConfig "model"));
    ("encodingFormat", validateFieldUpdate "encodingFormat" (prop newConfig "encodingFormat"));
    ("chunkStrategy", validateFieldUpdate "chunkStrategy" (prop newConfig "chunkStrategy"));
    ("chunkOverlap", validateFieldUpdate "chunkOverlap" (prop newConfig "chunkOverlap"));
    ("chunkSize", validateOptionalField isPositiveNumber "chunkSize" (prop newConfig "chunkSize"));
    ("aiServiceUrl", validateFieldUpdate "aiServiceUrl" (prop newConfig "aiServiceUrl"));
    ("splitter", validateOptionalField isFunction "splitter" (prop newConfig "splitter")) ].

Definition validateConfigUpdate (this : nat) (newConfig : JsObject) : M unit :=
  let seq := validateConfigUpdate_seq newConfig in
  E.match_ (fun err => throw err) (fun _ => ret tt) (sequenceS seq).

(** [new OpenAIEmbeddingFunction(config)]; [None] is a call without a
    configuration.  The object exists before the constructor body runs, so a
    failed validation leaves it behind, unconfigured and unreferenced. *)
Definition new (config : option JsObject) : M nat :=
  let* this := alloc (mkInstance "openai-embedding-with-chunking" None) in
  do match config with
     | Some c => do validateConfig this c then writeConfig this c
     | None => ret tt
     end
  then ret this.

Definition buildFromConfig (this : nat) (config : JsObject) : M nat :=
  new (Some config).

Definition getConfig (this : nat) : M JsObject :=
  let* aiServiceUrl := readConfigProp this "aiServiceUrl" in
  let* model := readConfigProp this "model" in
  let* encodingFormat := readConfigProp this "encodingFormat" in
  let* chunkSize := readConfigProp this "chunkSize" in
  let* chunkOverlap := readConfigProp this "chunkOverlap" in
  let* chunkStrategy := readConfigProp this "chunkStrategy" in
  ret (list_to_map
         [ ("aiServiceUrl", aiServiceUrl);
           ("model", model);
           ("encodingFormat", encodingFormat);
           ("chunkSize", chunkSize);
           ("chunkOverlap", chunkOverlap);
           ("chunkStrategy", chunkStrategy) ]).

(** The decimal numeral a template literal prints for a status code. *)
Definition showNat (n : nat) : string := NilZero.string_of_uint (Nat.to_uint n).

(** [i + v] for the loop index [i] and a stored [chunkSize] [v].  [undefined]
    converts to [NaN], [null] to 0 and a boolean to 0 or 1; with a string, a
    function or an object the sum is a string, which is not modelled. *)
Definition addValue (i : number) (v : JsValue) : M number :=
  match v with
  | JNum x => ret (Num.add i x)
  | JUndefined => ret (Num.add i NaN)
  | JNull => ret (Num.add i Num.zero)
  | JBool b => ret (Num.add i (if b then Fin 1 else Num.zero))
  | JStr _ | JFun _ | JObj => fun w => (Unmodelled, w)
  end.

(** [arr.push(...items)]: the items are spread into the arguments of the
    call, which throws a [RangeError] when there are more of them than the
    engine accepts. *)
Definition push {A} (arr items : list A) : M (list A) :=
  fun w =>
    if (maxArguments w <? N.of_nat (length items))%N
    then (Throw (RangeError "Maximum call stack size exceeded"), w)
    else (Return (arr ++ items), w).

(** Step 1 of [generate]: [for (const text of texts) chunks.push(...this.config.splitter(text))] *)
Fixpoint splitTexts (this : nat) (texts : list string) (chunks : list string)
    : M (list string) :=
  match texts with
  | [] => ret chunks
  | text :: texts' =>
      let* splitter := readConfigProp this "splitter" in
      match splitter with
      | JFun f =>
          let* chunks := push chunks (f text) in
          splitTexts this texts' chunks
      | _ => throw (TypeError "this.config.splitter is not a function")
      end
  end.

(** Step 2 of [generate]:
    [for (let i = 0; i < chunks.length; i += this.config.chunkSize) { ... }],
    entered with the current [i] and the embeddings collected so far.
    [fuel] bounds the number of times the loop test is evaluated. *)
Fixpoint batchLoop (svc : Service) (this : nat) (chunks : list string)
    (fuel : nat) (i : number) (embeddings : list Embedding)
    : M (list Embedding) :=
  match fuel with
  | O => fun w => (Pending, w)
  | S fuel' =>
      if Num.ltb i (Num.of_nat (length chunks)) then
        let* chunkSize := readConfigProp this "chunkSize" in
        let* end_ := addValue i chunkSize in
        let batch := slice chunks i end_ in
        let* aiServiceUrl := readConfigProp this "aiServiceUrl" in
        let* model := readConfigProp this "model" in
        let* encodingFormat := readConfigProp this "encodingFormat" in
        let* response :=
          fetch svc (mkRequest aiServiceUrl model batch encodingFormat) in
        if negb (ok response) then
          throw (Error ("Embedding request failed: "
                        +:+ showNat (status response) +:+ " "
                        +:+ statusText response))
        else
          let* embeddings := push embeddings (data response) in
          let* chunkSize := readConfigProp this "chunkSize" in
          let* i := addValue i chunkSize in
          batchLoop svc this chunks fuel' i embeddings
      else ret embeddings
  end.

Definition generate (svc : Service) (fuel : nat) (this : nat)
    (texts : list string) : M (list Embedding) :=
  let* chunks := splitTexts this texts [] in
  batchLoop svc this chunks fuel Num.zero [].

Definition generateForQueries (svc : Service) (fuel : nat) (this : nat)
    (texts : list string) : M (list Embedding) :=
  generate svc fuel this texts.

(** ** Specification-side definitions *)

(** The order in which the specification lists the configuration fields. *)
Definition fieldOrder : list string :=
  [ "aiServiceUrl"; "model"; "encodingFormat"; "chunkSize"; "chunkOverlap";
    "chunkStrategy"; "splitter" ].

(** The order of the checks in [validateConfigUpdate]. *)
Definition updateFieldOrder : list string :=
  [ "model"; "encodingFormat"; "chunkStrategy"; "chunkOverlap"; "chunkSize";
    "aiServiceUrl"; "splitter" ].

(** The fields an update may not carry. *)
Definition immutableFields : list string :=
  [ "model"; "encodingFormat"; "chunkStrategy"; "chunkOverlap"; "aiServiceUrl" ].

(** The fields [getConfig] reports. *)
Definition persistedFields : list string :=
  [ "aiServiceUrl"; "model"; "encodingFormat"; "chunkSize"; "chunkOverlap";
    "chunkStrategy" ].

(** A rule of full validation: field, whether it is required, its predicate. *)
Record Rule : Type := mkRule {
  field : string;
  required : bool;
  predicate : JsValue -> bool;
}.

(** The specification's table of full validation, in [fieldOrder]. *)
Definition fullRules : list Rule :=
  [ mkRule "aiServiceUrl" true isString;
    mkRule "model" true isString;
    mkRule "encodingFormat" false isString;
    mkRule "chunkSize" false isPositiveNumber;
    mkRule "chunkOverlap" false isNonNegativeNumber;
    mkRule "chunkStrategy" false isString;
    mkRule "splitter" false isFunction ].

(** A value is present when it is neither [undefined] nor [null]. *)
Definition present (v : JsValue) : bool := negb (isNullish v).

(** An optional field is fine when it is absent or satisfies its predicate. *)
Definition optionalOk (p : JsValue -> bool) (v : JsValue) : bool :=
  negb (present v) || p v.

(** A rule holds of a configuration. *)
Definition rulePasses (config : JsObject) (r : Rule) : bool :=
  let v := prop config (field r) in
  if required r then present v && predicate r v else optionalOk (predicate r) v.

(** The specification's batching: [batches] cuts [chunks] into consecutive
    pieces of [n] chunks each, except that the final piece may hold fewer
    (but at least one). *)
Definition batchesOfSize {A} (n : nat) (chunks : list A)
    (batches : list (list A)) : Prop :=
  concat batches = chunks /\
  (forall k b, batches !! k = Some b -> S k < length batches -> length b = n) /\
  (forall b, last batches = Some b -> 0 < length b <= n).

(** The message of a failed embedding request. *)
Definition requestFailed (r : Response) : JsError :=
  Error ("Embedding request failed: " +:+ showNat (status r) +:+ " " +:+ statusText r).

(** A configuration that full validation lets through. *)
Definition accepted (config : JsObject) : Prop :=
  forall this w, validateConfig this config w = (Return tt, w).

(** The calls a client can make on the objects of a world. *)
Inductive Call : Type :=
  | CallNew (config : option JsObject)
  | CallBuildFromConfig (this : nat) (config : JsObject)
  | CallGetConfig (this : nat)
  | CallValidateConfig (this : nat) (config : JsObject)
  | CallValidateConfigUpdate (this : nat) (newConfig : JsObject)
  | CallGenerate (svc : Service) (fuel : nat) (this : nat) (texts : list string)
  | CallGenerateForQueries (svc : Service) (fuel : nat) (this : nat)
      (texts : list string).

(** The world after a call. *)
Definition after (c : Call) (w : World) : World :=
  match c with
  | CallNew config => snd (new config w)
  | CallBuildFromConfig this config => snd (buildFromConfig this config w)
  | CallGetConfig this => snd (getConfig this w)
  | CallValidateConfig this config => snd (validateConfig this config w)
  | CallValidateConfigUpdate this newConfig =>
      snd (validateConfigUpdate this newConfig w)
  | CallGenerate svc fuel this texts => snd (generate svc fuel this texts w)
  | CallGenerateForQueries svc fuel this texts =>
      snd (generateForQueries svc fuel this texts w)
  end.

(** What the client can do without calling the class: [cfg[key] = value] and
    [delete cfg[key]] on the object [cfg] it passed to the constructor of
    object [l], which is the object [l] holds.  (A client that passed one
    object to several constructors changes all of them, here by one step for
    each.) *)
Definition assign (l : nat) (key : string) (value : JsValue) (w : World)
    : World :=
  mkWorld
    (alter (fun o => mkInstance (name o) (insert key value <$> config o)) l
       (heap w))
    (sent w) (maxArguments w).

Definition unset (l : nat) (key : string) (w : World) : World :=
  mkWorld
    (alter (fun o => mkInstance (name o) (delete key <$> config o)) l (heap w))
    (sent w) (maxArguments w).

(** The worlds a program can be in: it starts without objects, makes calls,
    and changes the configuration objects it holds. *)
Inductive reachable : World -> Prop :=
  | reachable_init limit : reachable (mkWorld [] [] limit)
  | reachable_call c w : reachable w -> reachable (after c w)
  | reachable_assign l key value w :
      reachable w -> reachable (assign l key value w)
  | reachable_unset l key w : reachable w -> reachable (unset l key w).

(** The worlds a program reaches by calls of the class alone, leaving the
    objects it passed to constructors as they were. *)
Inductive reachableByCalls : World -> Prop :=
  | byCalls_init limit : reachableByCalls (mkWorld [] [] limit)
  | byCalls_call c w : reachableByCalls w -> reachableByCalls (after c w).

(** Every object is unconfigured or holds a configuration that passed full
    validation. *)
Definition wellConfigured (w : World) : Prop :=
  forall l o, heap w !! l = Some o ->
    config o = None \/ exists c, config o = Some c /\ accepted c.

(** One step of the loop of [sequenceS]. *)
Definition apStep {Err A} (fr : Either Err (Struct A))
    (kfa : string * Either Err A) : Either Err (Struct A) :=
  let '(k, fa) := kfa in
  E.ap (E.map (fun acc a => acc ++ [(k, a)]) fr) fa.

(** No entry of a record of validations is a [Left]. *)
Definition allRight {Err A} (r : Struct (Either Err A)) : Prop :=
  Forall (fun kfa => E.isLeft (snd kfa) = false) r.

(** The check of [validateConfig] that a rule of the table stands for. *)
Definition ruleCheck (config : JsObject) (r : Rule) : string * Validation :=
  (field r,
   if required r
   then validateRequiredField (predicate r) (field r) (prop config (field r))
   else validateOptionalField (predicate r) (field r) (prop config (field r))).

(** How both validators end: throw the [Left], or return nothing. *)
Definition raise (seq : Struct Validation) : M unit :=
  E.match_ (fun err => throw err) (fun _ => ret tt) (sequenceS seq).

(** A freshly constructed object without and with a configuration. *)
Definition unconfigured : Instance :=
  mkInstance "openai-embedding-with-chunking" None.
Definition configured (c : JsObject) : Instance :=
  mkInstance "openai-embedding-with-chunking" (Some c).

(** The world with one more object. *)
Definition withObject (w : World) (o : Instance) : World :=
  mkWorld (heap w ++ [o]) (sent w) (maxArguments w).

(** The request [generate] posts for a batch under configuration [c]. *)
Definition batchRequest (c : JsObject) (batch : list string) : Request :=
  mkRequest (prop c "aiServiceUrl") (prop c "model") batch
    (prop c "encodingFormat").

(** The world with one more request sent. *)
Definition withRequest (w : World) (req : Request) : World :=
  mkWorld (heap w) (sent w ++ [req]) (maxArguments w).

(** The world with several more requests sent. *)
Definition withRequests (w : World) (reqs : list Request) : World :=
  mkWorld (heap w) (sent w ++ reqs) (maxArguments w).

(** [this.config] in a world, [None] when there is no such object or its
    field is unset. *)
Definition configOf (w : World) (this : nat) : option JsObject :=
  o ← heap w !! this; config o.

(** A service that answers every request successfully with the vector
    [embed] gives for each input chunk, in request order. *)
Definition answersWith (embed : string -> Embedding) (svc : Service) : Prop :=
  forall received req,
    exists r,
      svc received req = Responded r /\ ok r = true /\
      data r = map embed (input req).

(** A service that answers every request successfully with as many vectors
    as the request has input chunks. *)
Definition answersPerChunk (svc : Service) : Prop :=
  forall received req,
    exists r,
      svc received req = Responded r /\ ok r = true /\
      length (data r) = length (input req).

(** No text is split into more chunks than one call can take. *)
Definition splitsFit (f : string -> list string) (texts : list string)
    (w : World) : Prop :=
  Forall (fun text => (N.of_nat (length (f text)) <= maxArguments w)%N) texts.

(** ** Example configurations *)

(** The initial world of an engine that takes up to 65536 arguments. *)
Definition emptyWorld : World := mkWorld [] [] 65536%N.

(** The configuration the test suite starts from. *)
Definition validConfig : JsObject :=
  list_to_map
    [ ("aiServiceUrl", JStr "https://example.com/embeddings");
      ("model", JStr "text-embedding-3-large");
      ("encodingFormat", JStr "float");
      ("chunkSize", JNum (Fin 64));
      ("chunkOverlap", JNum (Fin 10));
      ("chunkStrategy", JStr "token");
      ("splitter", JFun (fun text => [text])) ].

(** [{ ...validConfig, aiServiceUrl: 123, model: undefined }] *)
Definition badUrlNoModel : JsObject :=
  <["model" := JUndefined]> (<["aiServiceUrl" := JNum (Fin 123)]> validConfig).

(** [{ aiServiceUrl: "https://example.com/embeddings" }] *)
Definition urlOnly : JsObject :=
  {[ "aiServiceUrl" := JStr "https://example.com/embeddings" ]}.

(** [{ aiServiceUrl: "https://other.example/embeddings", chunkSize: -1 }] *)
Definition newUrlBadChunkSize : JsObject :=
  list_to_map
    [ ("aiServiceUrl", JStr "https://other.example/embeddings");
      ("chunkSize", JNum (Fin (-1))) ].

(** [{ aiServiceUrl: "https://other.example/embeddings", model: "new-model" }] *)
Definition newUrlNewModel : JsObject :=
  list_to_map
    [ ("aiServiceUrl", JStr "https://other.example/embeddings");
      ("model", JStr "new-model") ].

(** [{ chunkSize: -1 }] and [{ chunkSize: 128 }] *)
Definition negativeChunkSizeOnly : JsObject := {[ "chunkSize" := JNum (Fin (-1)) ]}.
Definition chunkSizeOnly : JsObject := {[ "chunkSize" := JNum (Fin 128) ]}.

(** [{ ...validConfig, chunkSize: 2 }] and a world whose object 0 was
    constructed with it. *)
Definition pairsConfig : JsObject := <["chunkSize" := JNum (Fin 2)]> validConfig.
Definition pairsWorld : World := withObject emptyWorld (configured pairsConfig).

(** A service that answers every request with one vector per input chunk,
    and one that answers its second request with a 503. *)
Definition embedLength (s : string) : Embedding := [Num.of_nat (String.length s)].

Definition echoService : Service :=
  fun _ req => Responded (mkResponse 200 "OK" (map embedLength (input req))).

Definition failingSecond : Service :=
  fun received req =>
    match received with
    | [_] => Responded (mkResponse 503 "Service Unavailable" [])
    | _ => echoService received req
    end.

(** [{ ...validConfig, chunkSize: 1.5 }] and a world whose object 0 was
    constructed with it. *)
Definition fractionalConfig : JsObject :=
  <["chunkSize" := JNum (Fin (3 # 2))]> validConfig.
Definition fractionalWorld : World :=
  withObject emptyWorld (configured fractionalConfig).

(** [validConfig] without its [splitter], and without its [chunkSize]. *)
Definition noSplitterConfig : JsObject := delete "splitter" validConfig.
Definition noChunkSizeConfig : JsObject := delete "chunkSize" validConfig.

(** ** Further definitions *)

(** The error a validation carries, if any. *)
Definition outcome (v : Validation) : option JsError :=
  match v with Left e => Some e | Right _ => None end.

(** The first error of a list of outcomes. *)
Fixpoint firstError (os : list (option JsError)) : option JsError :=
  match os with
  | [] => None
  | Some e :: _ => Some e
  | None :: os' => firstError os'
  end.

(** Two values a validator cannot tell apart: equal, or both absent. *)
Definition sameValue (v1 v2 : JsValue) : Prop :=
  v1 = v2 \/ (present v1 = false /\ present v2 = false).

(** Two raw configurations that agree, up to [sameValue], on the seven
    fields. *)
Definition sameFields (c1 c2 : JsObject) : Prop :=
  forall k, k ∈ fieldOrder -> sameValue (prop c1 k) (prop c2 k).

(** The fields [generate] reads. *)
Definition generateFields : list string :=
  [ "splitter"; "chunkSize"; "aiServiceUrl"; "model"; "encodingFormat" ].

(** The world after a sequence of calls. *)
Definition afterAll (cs : list Call) (w : World) : World :=
  fold_left (fun w c => after c w) cs w.

(** [{ ...validConfig, chunkSize: null }], [{ ...validConfig, chunkSize: Infinity }]
    and worlds whose object 0 was constructed with them. *)
Definition nullChunkSizeConfig : JsObject := <["chunkSize" := JNull]> validConfig.
Definition nullChunkSizeWorld : World :=
  withObject emptyWorld (configured nullChunkSizeConfig).
Definition infiniteChunkSizeConfig : JsObject :=
  <["chunkSize" := JNum PosInfinity]> validConfig.
Definition infiniteChunkSizeWorld : World :=
  withObject emptyWorld (configured infiniteChunkSizeConfig).

(** A world whose object 0 was constructed without a configuration, and one
    whose object 0 was constructed with [validConfig]. *)
Definition unconfiguredWorld : World := withObject emptyWorld unconfigured.
Definition validWorld : World := withObject emptyWorld (configured validConfig).

(** [validWorld] after the client ran [validConfig.chunkSize = -1]. *)
Definition tamperedWorld : World :=
  assign 0 "chunkSize" (JNum (Fin (-1))) validWorld.

(** A service whose connection drops on the second request. *)
Definition droppingSecond : Service :=
  fun received req =>
    match received with
    | [_] => Rejected (TypeError "fetch failed")
    | _ => echoService received req
    end.

(** ** The build configuration *)

(** [fileName] of [vite.config.ts]: the name of the bundle written for a
    module format. *)
Definition fileName (format : string) : string :=
  "text-embedding-lib." +:+ format +:+ ".js".

(** ** Lemmas on [sequenceS] *)

Section SequenceS.
Context {Err A : Type}.
Implicit Types (r pre post rest : Struct (Either Err A)) (acc : Struct A)
  (fa : Either Err A).

Lemma sequenceS_fold k0 fa0 rest :
  sequenceS ((k0, fa0) :: rest)
  = fold_left apStep rest (E.map (fun a => [(k0, a)]) fa0).
Proof. reflexivity. Qed.

Lemma fold_apStep_Left rest (e : Err) :
  fold_left apStep rest (Left e) = Left e.
Proof. induction rest as [|[k fa] rest IH]; [reflexivity|]. exact IH. Qed.

Lemma fold_apStep_first_Left pre k (e : Err) post acc :
  allRight pre ->
  fold_left apStep (pre ++ (k, Left e) :: post) (Right acc) = Left e.
Proof.
  revert acc. induction pre as [|[k' fa] pre IH]; intros acc Hpre.
  - simpl. apply fold_apStep_Left.
  - inversion Hpre as [|? ? Hfa Hpre']; subst.
    destruct fa as [e'|a]; [discriminate Hfa|].
    simpl. apply IH, Hpre'.
Qed.

Lemma fold_apStep_allRight r acc :
  allRight r -> exists s, fold_left apStep r (Right acc) = Right s.
Proof.
  revert acc. induction r as [|[k fa] r IH]; intros acc Hr.
  - eexists; reflexivity.
  - inversion Hr as [|? ? Hfa Hr']; subst.
    destruct fa as [e'|a]; [discriminate Hfa|].
    simpl. apply IH, Hr'.
Qed.

(** The first [Left] in key order is the result. *)
Lemma sequenceS_first_Left pre k (e : Err) post :
  allRight pre -> sequenceS (pre ++ (k, Left e) :: post) = Left e.
Proof.
  destruct pre as [|[k0 fa0] pre]; intros Hpre.
  - simpl. apply fold_apStep_Left.
  - inversion Hpre as [|? ? Hfa Hpre']; subst.
    destruct fa0 as [e'|a]; [discriminate Hfa|].
    rewrite <- app_comm_cons, sequenceS_fold. simpl E.map.
    apply fold_apStep_first_Left, Hpre'.
Qed.

Lemma sequenceS_allRight r :
  allRight r -> exists s, sequenceS r = Right s.
Proof.
  destruct r as [|[k0 fa0] r]; intros Hr.
  - eexists; reflexivity.
  - inversion Hr as [|? ? Hfa Hr']; subst.
    destruct fa0 as [e'|a]; [discriminate Hfa|].
    rewrite sequenceS_fold. apply fold_apStep_allRight, Hr'.
Qed.

(** A record either is all [Right], or splits at its first [Left]. *)
Lemma allRight_or_first_Left r :
  allRight r \/
  exists pre k e post, r = pre ++ (k, Left e) :: post /\ allRight pre.
Proof.
  induction r as [|[k fa] r IH].
  - left. constructor.
  - destruct fa as [e|a].
    + right. exists [], k, e, r. split; [reflexivity|constructor].
    + destruct IH as [IH|(pre & k' & e & post & -> & Hpre)].
      * left. constructor; [reflexivity|exact IH].
      * right. exists ((k, Right a) :: pre), k', e, post.
        split; [reflexivity|]. constructor; [reflexivity|exact Hpre].
Qed.

End SequenceS.

(** ** Lemmas on the field validators *)

Lemma validateRequiredField_absent p n v :
  present v = false ->
  validateRequiredField p n v = Left (Error (n +:+ " is required")).
Proof.
  unfold present, validateRequiredField, E.fromNullable.
  destruct (isNullish v); [reflexivity|discriminate].
Qed.

Lemma validateRequiredField_invalid p n v :
  present v = true -> p v = false ->
  validateRequiredField p n v = Left (Error (n +:+ " is invalid")).
Proof.
  unfold present, validateRequiredField, E.fromNullable, E.fromPredicate.
  destruct (isNullish v); [discriminate|]. simpl. intros _ ->. reflexivity.
Qed.

Lemma validateRequiredField_valid p n v :
  present v = true -> p v = true -> validateRequiredField p n v = Right v.
Proof.
  unfold present, validateRequiredField, E.fromNullable, E.fromPredicate.
  destruct (isNullish v); [discriminate|]. simpl. intros _ ->. reflexivity.
Qed.

Lemma validateOptionalField_absent p n v :
  present v = false -> validateOptionalField p n v = Right v.
Proof.
  unfold present, validateOptionalField, O.fromNullable.
  destruct (isNullish v); [reflexivity|discriminate].
Qed.

Lemma validateOptionalField_invalid p n v :
  present v = true -> p v = false ->
  validateOptionalField p n v = Left (Error (n +:+ " is invalid")).
Proof.
  unfold present, validateOptionalField, O.fromNullable, E.fromPredicate.
  destruct (isNullish v); [discriminate|]. simpl. intros _ ->. reflexivity.
Qed.

Lemma validateOptionalField_valid p n v :
  p v = true -> validateOptionalField p n v = Right v.
Proof.
  unfold validateOptionalField, O.fromNullable, E.fromPredicate.
  destruct (isNullish v); [reflexivity|]. simpl. intros ->. reflexivity.
Qed.

Lemma validateOptionalField_ok p n v :
  optionalOk p v = true -> validateOptionalField p n v = Right v.
Proof.
  unfold optionalOk. intros [H| H]%orb_true_iff.
  - apply validateOptionalField_absent. now apply negb_true_iff in H.
  - now apply validateOptionalField_valid.
Qed.

Lemma validateOptionalField_Right p n v :
  E.isLeft (validateOptionalField p n v) = negb (optionalOk p v).
Proof.
  unfold optionalOk, present, validateOptionalField, O.fromNullable,
    E.fromPredicate.
  destruct (isNullish v); [reflexivity|]. simpl. now destruct (p v).
Qed.

Lemma validateRequiredField_Right p n v :
  E.isLeft (validateRequiredField p n v) = negb (present v && p v).
Proof.
  unfold present, validateRequiredField, E.fromNullable, E.fromPredicate.
  destruct (isNullish v); [reflexivity|]. simpl. now destruct (p v).
Qed.

Lemma validateFieldUpdate_absent n v :
  present v = false -> validateFieldUpdate n v = Right v.
Proof.
  unfold present, validateFieldUpdate, O.fromNullable.
  destruct (isNullish v); [reflexivity|discriminate].
Qed.

Lemma validateFieldUpdate_present n v :
  present v = true ->
  validateFieldUpdate n v = Left (Error ("Updating " +:+ n +:+ " is not allowed")).
Proof.
  unfold present, validateFieldUpdate, O.fromNullable.
  destruct (isNullish v); [discriminate|reflexivity].
Qed.

Lemma isString_present v : isString v = true -> present v = true.
Proof. now destruct v. Qed.

(** ** Lemmas on the two validators *)

Lemma raise_first_Left seq pre k e post w :
  seq = pre ++ (k, Left e) :: post -> allRight pre ->
  raise seq w = (Throw e, w).
Proof.
  intros -> Hpre. unfold raise. now rewrite sequenceS_first_Left.
Qed.

Lemma raise_allRight seq w : allRight seq -> raise seq w = (Return tt, w).
Proof.
  intros H. unfold raise. destruct (sequenceS_allRight seq H) as [s ->].
  reflexivity.
Qed.

Lemma raise_Return_inv seq w res w' :
  raise seq w = (Return res, w') -> allRight seq.
Proof.
  intros H. destruct (allRight_or_first_Left seq)
    as [Hall|(pre & k & e & post & Heq & Hpre)]; [exact Hall|].
  rewrite (raise_first_Left seq pre k e post w Heq Hpre) in H. discriminate.
Qed.

(** Validation neither allocates nor sends: the world is left as it was. *)
Lemma raise_world seq w : snd (raise seq w) = w.
Proof.
  unfold raise. destruct (sequenceS seq); reflexivity.
Qed.

Lemma validateConfig_raise this config :
  validateConfig this config = raise (validateConfig_seq config).
Proof. reflexivity. Qed.

Lemma validateConfigUpdate_raise this newConfig :
  validateConfigUpdate this newConfig = raise (validateConfigUpdate_seq newConfig).
Proof. reflexivity. Qed.

Lemma validateConfig_seq_rules config :
  validateConfig_seq config = map (ruleCheck config) fullRules.
Proof. reflexivity. Qed.

Lemma ruleCheck_isLeft config r :
  E.isLeft (snd (ruleCheck config r)) = negb (rulePasses config r).
Proof.
  unfold ruleCheck, rulePasses. simpl. destruct (required r).
  - apply validateRequiredField_Right.
  - apply validateOptionalField_Right.
Qed.

Lemma allRight_rules config rules :
  allRight (map (ruleCheck config) rules) <->
  Forall (fun r => rulePasses config r = true) rules.
Proof.
  unfold allRight. induction rules as [|r rules IH]; simpl.
  - split; constructor.
  - rewrite !Forall_cons, IH, ruleCheck_isLeft.
    now destruct (rulePasses config r).
Qed.

Lemma validateConfig_Return_iff this config w :
  validateConfig this config w = (Return tt, w) <->
  Forall (fun r => rulePasses config r = true) fullRules.
Proof.
  rewrite validateConfig_raise, validateConfig_seq_rules, <- allRight_rules.
  split; [apply raise_Return_inv|apply raise_allRight].
Qed.

Lemma accepted_iff config :
  accepted config <-> Forall (fun r => rulePasses config r = true) fullRules.
Proof.
  split.
  - intros H. apply (validateConfig_Return_iff 0 config emptyWorld), H.
  - intros H this w. now apply validateConfig_Return_iff.
Qed.

(** ** Full validation *)

(** The test suite's cases for [validateConfig]. *)
Example validateConfig_validConfig :
  validateConfig 0 validConfig emptyWorld = (Return tt, emptyWorld).
Proof. reflexivity. Qed.

Example validateConfig_missing_url :
  validateConfig 0 (<["aiServiceUrl" := JUndefined]> validConfig) emptyWorld
  = (Throw (Error "aiServiceUrl is required"), emptyWorld).
Proof. reflexivity. Qed.

Example validateConfig_negative_chunkSize :
  validateConfig 0 (<["chunkSize" := JNum (Fin (-1))]> validConfig) emptyWorld
  = (Throw (Error "chunkSize is invalid"), emptyWorld).
Proof. reflexivity. Qed.

Example validateConfig_splitter_not_a_function :
  validateConfig 0 (<["splitter" := JStr "not-a-function"]> validConfig) emptyWorld
  = (Throw (Error "splitter is invalid"), emptyWorld).
Proof. reflexivity. Qed.

Lemma validateConfig_rule_fails this config w pre r post e :
  fullRules = pre ++ r :: post ->
  Forall (fun r' => rulePasses config r' = true) pre ->
  snd (ruleCheck config r) = Left e ->
  validateConfig this config w = (Throw e, w).
Proof.
  intros Heq Hpre He. rewrite validateConfig_raise.
  apply (raise_first_Left _ (map (ruleCheck config) pre) (field r) e
           (map (ruleCheck config) post)).
  - rewrite validateConfig_seq_rules, Heq, map_app. simpl.
    do 2 f_equal. rewrite <- He. reflexivity.
  - now apply allRight_rules.
Qed.

(** Acceptance, field by field. *)
Lemma validateConfig_Return_fields this config w :
  validateConfig this config w = (Return tt, w) <->
  isString (prop config "aiServiceUrl") = true /\
  isString (prop config "model") = true /\
  optionalOk isString (prop config "encodingFormat") = true /\
  optionalOk isPositiveNumber (prop config "chunkSize") = true /\
  optionalOk isNonNegativeNumber (prop config "chunkOverlap") = true /\
  optionalOk isString (prop config "chunkStrategy") = true /\
  optionalOk isFunction (prop config "splitter") = true.
Proof.
  rewrite validateConfig_Return_iff. unfold fullRules.
  rewrite !Forall_cons, Forall_nil. unfold rulePasses. simpl.
  assert (Hs : forall v, present v && isString v = isString v)
    by (intros v; now destruct v).
  rewrite !Hs. tauto.
Qed.

(** A list of rules either passes as a whole or splits at its first failing
    rule. *)
Lemma first_failing_rule config rules :
  Forall (fun r => rulePasses config r = true) rules \/
  exists pre r post,
    rules = pre ++ r :: post /\
    Forall (fun r' => rulePasses config r' = true) pre /\
    rulePasses config r = false.
Proof.
  induction rules as [|r rules IH]; [left; constructor|].
  destruct (rulePasses config r) eqn:Hr.
  - destruct IH as [IH|(pre & r' & post & -> & Hpre & Hr')].
    + left. now constructor.
    + right. exists (r :: pre), r', post. split; [reflexivity|].
      split; [now constructor|exact Hr'].
  - right. exists [], r, rules. split; [reflexivity|].
    split; [constructor|exact Hr].
Qed.

(** C1, as stated, fails: with [aiServiceUrl: 123] and no [model], a required
    field is absent, yet the error thrown is ["aiServiceUrl is invalid"] and
    not ["model is required"]. *)
Lemma validateConfig_absent_model_not_reported :
  present (prop badUrlNoModel "model") = false /\
  validateConfig 0 badUrlNoModel emptyWorld
    = (Throw (Error "aiServiceUrl is invalid"), emptyWorld) /\
  validateConfig 0 badUrlNoModel emptyWorld
    <> (Throw (Error "model is required"), emptyWorld).
Proof.
  split; [reflexivity|]. split; [reflexivity|].
  intros H. vm_compute in H. discriminate H.
Qed.

(** C1 (amended).  [validateConfig] accepts a raw configuration exactly when
    [aiServiceUrl] and [model] are strings and each of [encodingFormat],
    [chunkSize], [chunkOverlap], [chunkStrategy], [splitter] is absent or
    satisfies its predicate.  Otherwise it throws the error of the first
    failing field in the order [aiServiceUrl], [model], [encodingFormat],
    [chunkSize], [chunkOverlap], [chunkStrategy], [splitter]: when every
    earlier field passes, a required field that is absent gives
    ["<field> is required"], and a field that is present but fails its
    predicate gives ["<field> is invalid"]; a configuration that is not
    accepted has such a first failing field. *)
Theorem validateConfig_first_failure (this : nat) (config : JsObject) (w : World) :
  (validateConfig this config w = (Return tt, w) <->
     isString (prop config "aiServiceUrl") = true /\
     isString (prop config "model") = true /\
     optionalOk isString (prop config "encodingFormat") = true /\
     optionalOk isPositiveNumber (prop config "chunkSize") = true /\
     optionalOk isNonNegativeNumber (prop config "chunkOverlap") = true /\
     optionalOk isString (prop config "chunkStrategy") = true /\
     optionalOk isFunction (prop config "splitter") = true) /\
  (forall pre r post,
     fullRules = pre ++ r :: post ->
     Forall (fun r' => rulePasses config r' = true) pre ->
     (required r = true -> present (prop config (field r)) = false ->
      validateConfig this config w
        = (Throw (Error (field r +:+ " is required")), w)) /\
     (present (prop config (field r)) = true ->
      predicate r (prop config (field r)) = false ->
      validateConfig this config w
        = (Throw (Error (field r +:+ " is invalid")), w))) /\
  (validateConfig this config w = (Return tt, w) \/
   exists pre r post,
     fullRules = pre ++ r :: post /\
     Forall (fun r' => rulePasses config r' = true) pre /\
     rulePasses config r = false).
Proof.
  split; [apply validateConfig_Return_fields|]. split.
  2:{ destruct (first_failing_rule config fullRules) as [H|H];
        [left; now apply validateConfig_Return_iff|right; exact H]. }
  - intros pre r post Heq Hpre. split.
    + intros Hreq Habs.
      apply (validateConfig_rule_fails this config w pre r post _ Heq Hpre).
      unfold ruleCheck. simpl. rewrite Hreq.
      now apply validateRequiredField_absent.
    + intros Hpres Hbad.
      apply (validateConfig_rule_fails this config w pre r post _ Heq Hpre).
      unfold ruleCheck. simpl. destruct (required r).
      * now apply validateRequiredField_invalid.
      * now apply validateOptionalField_invalid.
Qed.

Lemma validateConfig_first_failure_witness :
  validateConfig 0 urlOnly emptyWorld
    = (Throw (Error "model is required"), emptyWorld).
Proof.
  apply (proj1 (proj2 (validateConfig_first_failure 0 urlOnly emptyWorld))
           [mkRule "aiServiceUrl" true isString]
           (mkRule "model" true isString)
           [mkRule "encodingFormat" false isString;
            mkRule "chunkSize" false isPositiveNumber;
            mkRule "chunkOverlap" false isNonNegativeNumber;
            mkRule "chunkStrategy" false isString;
            mkRule "splitter" false isFunction]).
  - reflexivity.
  - repeat constructor.
  - reflexivity.
  - reflexivity.
Defined.

(** ** Update validation *)

(** The test suite's cases for [validateConfigUpdate]. *)
Example validateConfigUpdate_chunkSize :
  validateConfigUpdate 0 chunkSizeOnly emptyWorld = (Return tt, emptyWorld).
Proof. reflexivity. Qed.

Example validateConfigUpdate_splitter :
  validateConfigUpdate 0 {[ "splitter" := JFun (fun text => [text; text]) ]}
    emptyWorld = (Return tt, emptyWorld).
Proof. reflexivity. Qed.

Example validateConfigUpdate_model :
  validateConfigUpdate 0 {[ "model" := JStr "new-model" ]} emptyWorld
  = (Throw (Error "Updating model is not allowed"), emptyWorld).
Proof. reflexivity. Qed.

Example validateConfigUpdate_encodingFormat :
  validateConfigUpdate 0 {[ "encodingFormat" := JStr "int8" ]} emptyWorld
  = (Throw (Error "Updating encodingFormat is not allowed"), emptyWorld).
Proof. reflexivity. Qed.

Example validateConfigUpdate_chunkStrategy :
  validateConfigUpdate 0 {[ "chunkStrategy" := JStr "sentence" ]} emptyWorld
  = (Throw (Error "Updating chunkStrategy is not allowed"), emptyWorld).
Proof. reflexivity. Qed.

Example validateConfigUpdate_bad_chunkSize :
  validateConfigUpdate 0 {[ "chunkSize" := JNum (Fin (-10)) ]} emptyWorld
  = (Throw (Error "chunkSize is invalid"), emptyWorld).
Proof. reflexivity. Qed.

Example validateConfigUpdate_undefined_fields :
  validateConfigUpdate 0
    (list_to_map [("chunkSize", JUndefined); ("model", JUndefined)]) emptyWorld
  = (Return tt, emptyWorld).
Proof. reflexivity. Qed.

(** Rewrite the checks of the fields whose state the context knows, then run
    [sequenceS] on the record. *)
Ltac settle_checks :=
  repeat match goal with
  | H : present ?v = false |- context [validateFieldUpdate ?n ?v] =>
      rewrite (validateFieldUpdate_absent n v H)
  | H : present ?v = true |- context [validateFieldUpdate ?n ?v] =>
      rewrite (validateFieldUpdate_present n v H)
  | H : present ?v = false |- context [validateOptionalField ?p ?n ?v] =>
      rewrite (validateOptionalField_absent p n v H)
  | H : optionalOk ?p ?v = true |- context [validateOptionalField ?p ?n ?v] =>
      rewrite (validateOptionalField_ok p n v H)
  | H : ?p ?v = true |- context [validateOptionalField ?p ?n ?v] =>
      rewrite (validateOptionalField_valid p n v H)
  | H : ?p ?v = false, H' : present ?v = true
    |- context [validateOptionalField ?p ?n ?v] =>
      rewrite (validateOptionalField_invalid p n v H' H)
  | H : ?p ?v = true |- context [validateRequiredField ?p ?n ?v] =>
      rewrite (validateRequiredField_valid p n v (isString_present v H) H)
  end.

Ltac run_update :=
  rewrite validateConfigUpdate_raise; unfold validateConfigUpdate_seq;
  settle_checks; reflexivity.

Ltac run_full :=
  rewrite validateConfig_raise; unfold validateConfig_seq;
  settle_checks; reflexivity.

(** C2, as stated, fails: an update that supplies a service URL together
    with an invalid [chunkSize] is rejected with ["chunkSize is invalid"],
    not with an ["Updating <field> is not allowed"] error. *)
Lemma validateConfigUpdate_url_with_bad_chunkSize :
  present (prop newUrlBadChunkSize "aiServiceUrl") = true /\
  validateConfigUpdate 0 newUrlBadChunkSize emptyWorld
    = (Throw (Error "chunkSize is invalid"), emptyWorld) /\
  forall f,
    validateConfigUpdate 0 newUrlBadChunkSize emptyWorld
    <> (Throw (Error ("Updating " +:+ f +:+ " is not allowed")), emptyWorld).
Proof.
  split; [reflexivity|]. split; [reflexivity|].
  intros f H. vm_compute in H. discriminate H.
Qed.

(** C2 (amended).  [validateConfigUpdate] throws
    ["Updating <field> is not allowed"] for the first of [model],
    [encodingFormat], [chunkStrategy], [chunkOverlap] that carries a value
    (any value other than [undefined] and [null], valid or not); when none of
    these four does and [aiServiceUrl] carries a value, it throws
    ["Updating aiServiceUrl is not allowed"] provided [chunkSize] is absent or
    a positive number.  An absent field is never an error: its check
    succeeds, and an update whose seven fields are all absent is accepted. *)
Theorem validateConfigUpdate_immutable (this : nat) (newConfig : JsObject)
    (w : World) :
  let absent f := present (prop newConfig f) = false in
  let supplied f := present (prop newConfig f) = true in
  let rejects f :=
    validateConfigUpdate this newConfig w
    = (Throw (Error ("Updating " +:+ f +:+ " is not allowed")), w) in
  (supplied "model" -> rejects "model") /\
  (absent "model" -> supplied "encodingFormat" -> rejects "encodingFormat") /\
  (absent "model" -> absent "encodingFormat" -> supplied "chunkStrategy" ->
   rejects "chunkStrategy") /\
  (absent "model" -> absent "encodingFormat" -> absent "chunkStrategy" ->
   supplied "chunkOverlap" -> rejects "chunkOverlap") /\
  (absent "model" -> absent "encodingFormat" -> absent "chunkStrategy" ->
   absent "chunkOverlap" ->
   optionalOk isPositiveNumber (prop newConfig "chunkSize") = true ->
   supplied "aiServiceUrl" -> rejects "aiServiceUrl") /\
  (forall f c, In (f, c) (validateConfigUpdate_seq newConfig) -> absent f ->
   c = Right (prop newConfig f)) /\
  (Forall absent updateFieldOrder ->
   validateConfigUpdate this newConfig w = (Return tt, w)).
Proof.
  cbv zeta. split; [|split; [|split; [|split; [|split; [|split]]]]].
  - intros. run_update.
  - intros. run_update.
  - intros. run_update.
  - intros. run_update.
  - intros. run_update.
  - intros f c Hin Habs. unfold validateConfigUpdate_seq in Hin. simpl in Hin.
    repeat (destruct Hin as [Hin|Hin];
            [injection Hin as <- <-;
             first [now apply validateFieldUpdate_absent
                   |now apply validateOptionalField_absent]|]).
    destruct Hin.
  - unfold updateFieldOrder. rewrite !Forall_cons. intros (?&?&?&?&?&?&?&_).
    run_update.
Qed.

Lemma validateConfigUpdate_immutable_witness :
  validateConfigUpdate 0 newUrlNewModel emptyWorld
    = (Throw (Error "Updating model is not allowed"), emptyWorld) /\
  validateConfigUpdate 0 urlOnly emptyWorld
    = (Throw (Error "Updating aiServiceUrl is not allowed"), emptyWorld) /\
  validateConfigUpdate 0 ∅ emptyWorld = (Return tt, emptyWorld).
Proof.
  split; [|split].
  - apply (proj1 (validateConfigUpdate_immutable 0 newUrlNewModel emptyWorld)).
    reflexivity.
  - apply (validateConfigUpdate_immutable 0 urlOnly emptyWorld); reflexivity.
  - apply (validateConfigUpdate_immutable 0 ∅ emptyWorld).
    repeat constructor.
Defined.

(** ** The order of the checks *)

(** C3, as stated, fails: an update that supplies both a service URL and a
    model has two failing checks; the service URL comes first in the order
    the claim gives, yet the error thrown is the model's. *)
Lemma validateConfigUpdate_reports_model_before_url :
  validateFieldUpdate "aiServiceUrl" (prop newUrlNewModel "aiServiceUrl")
    = Left (Error "Updating aiServiceUrl is not allowed") /\
  validateFieldUpdate "model" (prop newUrlNewModel "model")
    = Left (Error "Updating model is not allowed") /\
  validateConfigUpdate 0 newUrlNewModel emptyWorld
    = (Throw (Error "Updating model is not allowed"), emptyWorld) /\
  validateConfigUpdate 0 newUrlNewModel emptyWorld
    <> (Throw (Error "Updating aiServiceUrl is not allowed"), emptyWorld).
Proof.
  repeat split; try reflexivity.
  intros H. vm_compute in H. discriminate H.
Qed.

(** C3 (amended).  Each validator throws the error of the first failing
    check in the key order of its own record, and the two orders differ:
    [validateConfig] checks [aiServiceUrl], [model], [encodingFormat],
    [chunkSize], [chunkOverlap], [chunkStrategy], [splitter];
    [validateConfigUpdate] checks [model], [encodingFormat], [chunkStrategy],
    [chunkOverlap], [chunkSize], [aiServiceUrl], [splitter]. *)
Theorem first_failure_in_key_order (this : nat) (config : JsObject) (w : World) :
  map fst (validateConfig_seq config) = fieldOrder /\
  map fst (validateConfigUpdate_seq config) = updateFieldOrder /\
  (forall pre k e post,
     validateConfig_seq config = pre ++ (k, Left e) :: post -> allRight pre ->
     validateConfig this config w = (Throw e, w)) /\
  (forall pre k e post,
     validateConfigUpdate_seq config = pre ++ (k, Left e) :: post ->
     allRight pre ->
     validateConfigUpdate this config w = (Throw e, w)).
Proof.
  split; [reflexivity|]. split; [reflexivity|]. split.
  - intros pre k e post Heq Hpre. rewrite validateConfig_raise.
    exact (raise_first_Left _ pre k e post w Heq Hpre).
  - intros pre k e post Heq Hpre. rewrite validateConfigUpdate_raise.
    exact (raise_first_Left _ pre k e post w Heq Hpre).
Qed.

Lemma first_failure_in_key_order_witness :
  validateConfig 0 badUrlNoModel emptyWorld
    = (Throw (Error "aiServiceUrl is invalid"), emptyWorld) /\
  validateConfigUpdate 0 newUrlBadChunkSize emptyWorld
    = (Throw (Error "chunkSize is invalid"), emptyWorld).
Proof.
  pose proof (first_failure_in_key_order 0 badUrlNoModel emptyWorld)
    as (_ & _ & Hfull & _).
  pose proof (first_failure_in_key_order 0 newUrlBadChunkSize emptyWorld)
    as (_ & _ & _ & Hupdate).
  split.
  - apply (Hfull [] "aiServiceUrl" _
             (tl (validateConfig_seq badUrlNoModel))).
    + reflexivity.
    + constructor.
  - apply (Hupdate (take 4 (validateConfigUpdate_seq newUrlBadChunkSize))
             "chunkSize" _
             (drop 5 (validateConfigUpdate_seq newUrlBadChunkSize))).
    + reflexivity.
    + repeat constructor.
Defined.

(** ** The [chunkSize] predicate *)

Lemma isPositiveNumber_spec v :
  isPositiveNumber v = true <-> exists x, v = JNum x /\ Num.gtb x Num.zero = true.
Proof.
  split.
  - destruct v; try discriminate. simpl. eauto.
  - intros (x & -> & H). exact H.
Qed.

(** C4, as stated, fails: a configuration whose only field is a [chunkSize]
    is rejected for its missing service URL, whether that [chunkSize] is
    negative (the error is not ["chunkSize is invalid"]) or positive
    (validation does not succeed). *)
Lemma validateConfig_chunkSize_alone :
  present (prop negativeChunkSizeOnly "chunkSize") = true /\
  isPositiveNumber (prop negativeChunkSizeOnly "chunkSize") = false /\
  validateConfig 0 negativeChunkSizeOnly emptyWorld
    = (Throw (Error "aiServiceUrl is required"), emptyWorld) /\
  validateConfig 0 negativeChunkSizeOnly emptyWorld
    <> (Throw (Error "chunkSize is invalid"), emptyWorld) /\
  isPositiveNumber (prop chunkSizeOnly "chunkSize") = true /\
  validateConfig 0 chunkSizeOnly emptyWorld
    = (Throw (Error "aiServiceUrl is required"), emptyWorld).
Proof.
  repeat split; try reflexivity.
  intros H. vm_compute in H. discriminate H.
Qed.

(** C4 (amended).  When [chunkSize] is present (neither [undefined] nor
    [null]) and is not a number greater than zero, [validateConfig] throws
    ["chunkSize is invalid"] provided the fields it checks earlier pass
    ([aiServiceUrl] and [model] are strings, [encodingFormat] is absent or a
    string), and [validateConfigUpdate] does so provided [model],
    [encodingFormat], [chunkStrategy] and [chunkOverlap] are absent.  When
    [chunkSize] is a number greater than zero, [validateConfig] succeeds
    provided every other field passes its own check, and
    [validateConfigUpdate] succeeds provided no immutable field is supplied
    and [splitter] is absent or callable. *)
Theorem chunkSize_validation (this : nat) (config : JsObject) (w : World) :
  let chunkSize := prop config "chunkSize" in
  let absent f := present (prop config f) = false in
  (present chunkSize = true -> isPositiveNumber chunkSize = false ->
   isString (prop config "aiServiceUrl") = true ->
   isString (prop config "model") = true ->
   optionalOk isString (prop config "encodingFormat") = true ->
   validateConfig this config w = (Throw (Error "chunkSize is invalid"), w)) /\
  (present chunkSize = true -> isPositiveNumber chunkSize = false ->
   absent "model" -> absent "encodingFormat" -> absent "chunkStrategy" ->
   absent "chunkOverlap" ->
   validateConfigUpdate this config w
     = (Throw (Error "chunkSize is invalid"), w)) /\
  (isPositiveNumber chunkSize = true ->
   isString (prop config "aiServiceUrl") = true ->
   isString (prop config "model") = true ->
   optionalOk isString (prop config "encodingFormat") = true ->
   optionalOk isNonNegativeNumber (prop config "chunkOverlap") = true ->
   optionalOk isString (prop config "chunkStrategy") = true ->
   optionalOk isFunction (prop config "splitter") = true ->
   validateConfig this config w = (Return tt, w)) /\
  (isPositiveNumber chunkSize = true ->
   Forall absent immutableFields ->
   optionalOk isFunction (prop config "splitter") = true ->
   validateConfigUpdate this config w = (Return tt, w)).
Proof.
  cbv zeta. split; [|split; [|split]].
  - intros. run_full.
  - intros. run_update.
  - intros. run_full.
  - unfold immutableFields. rewrite !Forall_cons. intros ? (?&?&?&?&?&_) ?.
    run_update.
Qed.

Lemma chunkSize_validation_witness :
  validateConfig 0 (<["chunkSize" := JNum (Fin (-1))]> validConfig) emptyWorld
    = (Throw (Error "chunkSize is invalid"), emptyWorld) /\
  validateConfigUpdate 0 negativeChunkSizeOnly emptyWorld
    = (Throw (Error "chunkSize is invalid"), emptyWorld) /\
  validateConfig 0 validConfig emptyWorld = (Return tt, emptyWorld) /\
  validateConfigUpdate 0 chunkSizeOnly emptyWorld = (Return tt, emptyWorld).
Proof.
  split; [|split; [|split]].
  - apply (proj1 (chunkSize_validation 0
             (<["chunkSize" := JNum (Fin (-1))]> validConfig) emptyWorld));
      reflexivity.
  - apply (proj1 (proj2 (chunkSize_validation 0 negativeChunkSizeOnly
                           emptyWorld))); reflexivity.
  - apply (proj1 (proj2 (proj2 (chunkSize_validation 0 validConfig
                                  emptyWorld)))); reflexivity.
  - apply (proj2 (proj2 (proj2 (chunkSize_validation 0 chunkSizeOnly
                                  emptyWorld)))).
    + reflexivity.
    + repeat constructor.
    + reflexivity.
Defined.

(** ** Construction *)

Lemma raise_cases seq w :
  raise seq w = (Return tt, w) \/ exists e, raise seq w = (Throw e, w).
Proof.
  unfold raise. destruct (sequenceS seq) as [e|s]; simpl; eauto.
Qed.

Lemma raise_any_world seq w w' res :
  raise seq w = (res, w) -> raise seq w' = (res, w').
Proof.
  unfold raise. destruct (sequenceS seq) as [e|s]; simpl;
    intros [= <-]; reflexivity.
Qed.

Lemma validateConfig_any this this' config w w' res :
  validateConfig this config w = (res, w) ->
  validateConfig this' config w' = (res, w').
Proof. rewrite !validateConfig_raise. apply raise_any_world. Qed.

Lemma accepted_intro this config w :
  validateConfig this config w = (Return tt, w) -> accepted config.
Proof. intros H this' w'. exact (validateConfig_any _ _ _ _ _ _ H). Qed.

Lemma new_None w : new None w = (Return (length (heap w)), withObject w unconfigured).
Proof. reflexivity. Qed.

Lemma alter_last {A} (f : A -> A) (l : list A) (x : A) :
  alter f (length l) (l ++ [x]) = l ++ [f x].
Proof.
  replace (length l) with (length l + 0) at 1 by lia.
  now rewrite alter_app_r.
Qed.

Lemma new_accepted config w :
  accepted config ->
  new (Some config) w
  = (Return (length (heap w)), withObject w (configured config)).
Proof.
  intros H. unfold new, bind, alloc. simpl. rewrite H.
  unfold writeConfig, ret. simpl. now rewrite alter_last.
Qed.

Lemma new_rejected config w e :
  validateConfig (length (heap w)) config w = (Throw e, w) ->
  new (Some config) w = (Throw e, withObject w unconfigured).
Proof.
  intros H. unfold new, bind, alloc. simpl.
  now erewrite (validateConfig_any _ _ _ _ _ _ H).
Qed.

Lemma new_cases config w :
  (accepted config /\
   new (Some config) w
   = (Return (length (heap w)), withObject w (configured config))) \/
  (exists e, validateConfig (length (heap w)) config w = (Throw e, w) /\
   new (Some config) w = (Throw e, withObject w unconfigured)).
Proof.
  destruct (raise_cases (validateConfig_seq config) w) as [H|[e H]];
    rewrite <- (validateConfig_raise (length (heap w))) in H.
  - left. split; [exact (accepted_intro _ _ _ H)|].
    apply new_accepted. exact (accepted_intro _ _ _ H).
  - right. exists e. split; [exact H|]. now apply new_rejected.
Qed.

Lemma lookup_withObject_old w o l :
  l < length (heap w) -> heap (withObject w o) !! l = heap w !! l.
Proof. intros H. simpl. now rewrite lookup_app_l. Qed.

Lemma lookup_withObject_new w o :
  heap (withObject w o) !! length (heap w) = Some o.
Proof. simpl. now rewrite list_lookup_middle. Qed.

(** ** Reading the configuration *)

Lemma readConfigProp_configured this key w o c :
  heap w !! this = Some o -> config o = Some c ->
  readConfigProp this key w = (Return (prop c key), w).
Proof.
  intros Ho Hc. unfold readConfigProp, bind, readConfig. simpl.
  rewrite Ho. simpl. rewrite Hc. reflexivity.
Qed.

Lemma readConfigProp_unconfigured this key w :
  (o ← heap w !! this; config o) = None ->
  readConfigProp this key w
  = (Throw (TypeError
       ("Cannot read properties of undefined (reading '" +:+ key +:+ "')")), w).
Proof.
  intros H. unfold readConfigProp, bind, readConfig. simpl. now rewrite H.
Qed.

Lemma readConfigProp_world this key w : snd (readConfigProp this key w) = w.
Proof.
  unfold readConfigProp, bind, readConfig. simpl.
  now destruct (o ← heap w !! this; config o).
Qed.

Lemma getConfig_configured this w o c :
  heap w !! this = Some o -> config o = Some c ->
  getConfig this w
  = (Return (list_to_map (map (fun k => (k, prop c k)) persistedFields)), w).
Proof.
  intros Ho Hc. unfold getConfig, bind.
  rewrite !(readConfigProp_configured this _ w o c Ho Hc). reflexivity.
Qed.

Lemma getConfig_world this w : snd (getConfig this w) = w.
Proof.
  destruct (o ← heap w !! this; config o) as [c|] eqn:E.
  - destruct (heap w !! this) as [o|] eqn:Ho; [|discriminate].
    simpl in E. now rewrite (getConfig_configured this w o c Ho E).
  - unfold getConfig, bind.
    now rewrite (readConfigProp_unconfigured this _ w E).
Qed.

(** The test suite's case for [getConfig]. *)
Example getConfig_validConfig :
  fst ((let* embedding := new (Some validConfig) in getConfig embedding)
         emptyWorld)
  = Return (list_to_map
      [ ("aiServiceUrl", JStr "https://example.com/embeddings");
        ("model", JStr "text-embedding-3-large");
        ("encodingFormat", JStr "float");
        ("chunkSize", JNum (Fin 64));
        ("chunkOverlap", JNum (Fin 10));
        ("chunkStrategy", JStr "token") ]).
Proof. reflexivity. Qed.

(** C7.  After a successful construction with a configuration, [getConfig]
    returns an object whose keys are exactly the six persisted fields
    ([aiServiceUrl], [model], [encodingFormat], [chunkSize], [chunkOverlap],
    [chunkStrategy]), each holding the value the configuration supplied for
    it ([undefined] when it supplied none), and which has no [splitter]. *)
Theorem getConfig_after_new (config : JsObject) (w w' : World) (this : nat) :
  new (Some config) w = (Return this, w') ->
  exists o : JsObject,
    getConfig this w' = (Return o, w') /\
    dom o = list_to_set persistedFields /\
    (forall k, k ∈ persistedFields -> o !! k = Some (prop config k)) /\
    o !! "splitter" = None.
Proof.
  intros Hnew.
  destruct (new_cases config w) as [[_ H]|(e & _ & H)];
    rewrite H in Hnew; [|discriminate].
  injection Hnew as <- <-.
  eexists. split; [|split; [|split]].
  - apply (getConfig_configured _ _ (configured config) config).
    + apply lookup_withObject_new.
    + reflexivity.
  - rewrite dom_list_to_map_L. reflexivity.
  - intros k Hk. unfold persistedFields in Hk.
    repeat (apply elem_of_cons in Hk as [->|Hk]; [reflexivity|]).
    now apply elem_of_nil in Hk.
  - reflexivity.
Qed.

Lemma getConfig_after_new_witness :
  exists o : JsObject,
    getConfig 0 (withObject emptyWorld (configured validConfig))
    = (Return o, withObject emptyWorld (configured validConfig)) /\
    dom o = list_to_set persistedFields /\
    (forall k, k ∈ persistedFields -> o !! k = Some (prop validConfig k)) /\
    o !! "splitter" = None.
Proof.
  apply (getConfig_after_new validConfig emptyWorld). reflexivity.
Defined.

(** ** [buildFromConfig] *)

(** The test suite's cases for [buildFromConfig]. *)
Example buildFromConfig_validConfig :
  fst ((let* embedding := new None in buildFromConfig embedding validConfig)
         emptyWorld) = Return 1.
Proof. reflexivity. Qed.

Example buildFromConfig_invalid_model :
  fst ((let* embedding := new None in
        buildFromConfig embedding (<["model" := JNum (Fin 123)]> validConfig))
         emptyWorld) = Throw (Error "model is invalid").
Proof. reflexivity. Qed.

(** C8.  [buildFromConfig(config)] behaves as [new] on the same
    configuration: it validates it and, on success, returns a new object,
    distinct from the calling one, that stores the configuration; on failure
    it throws the validator's error.  The calling object is left as it was. *)
Theorem buildFromConfig_as_new (this : nat) (config : JsObject) (w : World) :
  is_Some (heap w !! this) ->
  buildFromConfig this config w = new (Some config) w /\
  heap (snd (buildFromConfig this config w)) !! this = heap w !! this /\
  ((exists built w',
      buildFromConfig this config w = (Return built, w') /\
      validateConfig this config w = (Return tt, w) /\
      built <> this /\
      heap w' !! built = Some (configured config)) \/
   (exists e w',
      buildFromConfig this config w = (Throw e, w') /\
      validateConfig this config w = (Throw e, w))).
Proof.
  intros Hthis. apply lookup_lt_is_Some in Hthis.
  split; [reflexivity|]. unfold buildFromConfig.
  destruct (new_cases config w) as [[Hacc ->]|(e & He & ->)].
  - split; [now apply lookup_withObject_old|].
    left. eexists _, _. split; [reflexivity|].
    split; [apply Hacc|]. split; [lia|]. apply lookup_withObject_new.
  - split; [now apply lookup_withObject_old|].
    right. eexists _, _. split; [reflexivity|].
    exact (validateConfig_any _ _ _ _ _ _ He).
Qed.

Lemma buildFromConfig_as_new_witness :
  buildFromConfig 0 validConfig (withObject emptyWorld unconfigured)
    = new (Some validConfig) (withObject emptyWorld unconfigured) /\
  heap (snd (buildFromConfig 0 validConfig (withObject emptyWorld unconfigured)))
    !! 0 = Some unconfigured.
Proof.
  destruct (buildFromConfig_as_new 0 validConfig
              (withObject emptyWorld unconfigured)) as (H1 & H2 & _).
  - exists unconfigured. reflexivity.
  - split; [exact H1|exact H2].
Defined.

(** ** One iteration of the batching loop *)

Lemma readConfigProp_configOf this key w c :
  configOf w this = Some c ->
  readConfigProp this key w = (Return (prop c key), w).
Proof.
  intros H. unfold readConfigProp, bind, readConfig. simpl.
  unfold configOf in H. now rewrite H.
Qed.

Lemma configOf_withRequest w req this :
  configOf (withRequest w req) this = configOf w this.
Proof. reflexivity. Qed.

Lemma configOf_lookup w this o c :
  heap w !! this = Some o -> config o = Some c -> configOf w this = Some c.
Proof. intros Ho Hc. unfold configOf. rewrite Ho. exact Hc. Qed.

(** With a configuration in place and a [chunkSize] the index can be advanced
    by, an iteration sends one request and continues or throws according to
    the reply. *)
Lemma batchLoop_iteration svc this chunks fuel i i' embeddings w c :
  configOf w this = Some c ->
  Num.ltb i (Num.of_nat (length chunks)) = true ->
  (forall w', addValue i (prop c "chunkSize") w' = (Return i', w')) ->
  batchLoop svc this chunks (S fuel) i embeddings w
  = let req := batchRequest c (slice chunks i i') in
    match svc (sent w) req with
    | Rejected e => (Throw e, withRequest w req)
    | Responded r =>
        if ok r
        then
          if (maxArguments w <? N.of_nat (length (data r)))%N
          then (Throw (RangeError "Maximum call stack size exceeded"),
                withRequest w req)
          else batchLoop svc this chunks fuel i' (embeddings ++ data r)
                 (withRequest w req)
        else (Throw (requestFailed r), withRequest w req)
    end.
Proof.
  intros Hc Hlt Hadd. simpl. rewrite Hlt. unfold bind.
  rewrite (readConfigProp_configOf this "chunkSize" w c Hc), Hadd.
  rewrite !(readConfigProp_configOf this _ w c Hc).
  unfold fetch. fold (batchRequest c (slice chunks i i')).
  destruct (svc (sent w) (batchRequest c (slice chunks i i'))) as [e|r];
    [reflexivity|].
  fold (withRequest w (batchRequest c (slice chunks i i'))).
  destruct (ok r); simpl; [|reflexivity].
  unfold push. simpl maxArguments.
  destruct (maxArguments w <? N.of_nat (length (data r)))%N; [reflexivity|].
  rewrite (readConfigProp_configOf this "chunkSize" _ c
             (eq_trans (configOf_withRequest w _ this) Hc)), Hadd.
  reflexivity.
Qed.

(** Without a configuration, or with a [chunkSize] that is a string, a
    function or an object, an iteration ends before anything is sent. *)
Lemma batchLoop_iteration_cases svc this chunks i w :
  Num.ltb i (Num.of_nat (length chunks)) = true ->
  (exists res, forall fuel embeddings,
     batchLoop svc this chunks (S fuel) i embeddings w = (res, w)) \/
  (exists c i', configOf w this = Some c /\
     forall w', addValue i (prop c "chunkSize") w' = (Return i', w')).
Proof.
  intros Hlt. destruct (configOf w this) as [c|] eqn:Hc.
  - destruct (prop c "chunkSize") as [| |b|x|s|f|] eqn:Hcs;
      try (right; exists c; eexists; split; [reflexivity|];
           intros w'; rewrite Hcs; reflexivity);
      left; eexists; intros fuel embeddings; simpl; rewrite Hlt; unfold bind;
      rewrite (readConfigProp_configOf this "chunkSize" w c Hc), Hcs;
      reflexivity.
  - left. eexists. intros fuel embeddings. simpl. rewrite Hlt. unfold bind.
    rewrite (readConfigProp_unconfigured this "chunkSize" w Hc). reflexivity.
Qed.

Lemma batchLoop_exit svc this chunks fuel i embeddings w :
  Num.ltb i (Num.of_nat (length chunks)) = false ->
  batchLoop svc this chunks (S fuel) i embeddings w = (Return embeddings, w).
Proof. intros Hlt. simpl. now rewrite Hlt. Qed.

(** ** Spreading into [push] *)

Lemma push_fits {A} (arr items : list A) w :
  (N.of_nat (length items) <= maxArguments w)%N ->
  push arr items w = (Return (arr ++ items), w).
Proof.
  intros H. unfold push.
  now destruct (N.ltb_spec (maxArguments w) (N.of_nat (length items))); [lia|].
Qed.

Lemma push_overflow {A} (arr items : list A) w :
  (maxArguments w < N.of_nat (length items))%N ->
  push arr items w
  = (Throw (RangeError "Maximum call stack size exceeded"), w).
Proof.
  intros H. unfold push.
  now destruct (N.ltb_spec (maxArguments w) (N.of_nat (length items))); [|lia].
Qed.

Lemma push_nil {A} (arr : list A) w : push arr [] w = (Return arr, w).
Proof. rewrite push_fits by (simpl; lia). now rewrite app_nil_r. Qed.

Lemma push_cases {A} (arr items : list A) w :
  push arr items w = (Return (arr ++ items), w) \/
  push arr items w
  = (Throw (RangeError "Maximum call stack size exceeded"), w).
Proof.
  unfold push. destruct (_ <? _)%N; [now right|now left].
Qed.

(** ** Requests and failures of [generate] *)

Lemma splitTexts_world this texts chunks w :
  snd (splitTexts this texts chunks w) = w.
Proof.
  revert chunks. induction texts as [|text texts IH]; intros chunks;
    [reflexivity|].
  simpl. unfold bind.
  pose proof (readConfigProp_world this "splitter" w) as Hw.
  destruct (readConfigProp this "splitter" w) as [[v| | |] w1]; simpl in Hw;
    subst w1; try reflexivity.
  destruct v; try reflexivity.
  destruct (push_cases chunks (f text) w) as [-> | ->]; [apply IH|reflexivity].
Qed.

(** What a run of the loop sends: the world's objects are untouched, and a
    request answered with a non-success status is the last one sent and
    decides the result. *)
Lemma batchLoop_requests svc this chunks fuel :
  forall i embeddings w res w',
    batchLoop svc this chunks fuel i embeddings w = (res, w') ->
    heap w' = heap w /\
    exists reqs, sent w' = sent w ++ reqs /\
      forall j req r,
        reqs !! j = Some req ->
        svc (sent w ++ take j reqs) req = Responded r -> ok r = false ->
        S j = length reqs /\ res = Throw (requestFailed r).
Proof.
  assert (Hnone : forall (w : World) (res : Completion (list Embedding)),
            heap w = heap w /\
            exists reqs, sent w = sent w ++ reqs /\
              forall j req r,
                reqs !! j = Some req ->
                svc (sent w ++ take j reqs) req = Responded r -> ok r = false ->
                S j = length reqs /\ res = Throw (requestFailed r)).
  { intros w res. split; [reflexivity|]. exists []. rewrite app_nil_r.
    split; [reflexivity|]. intros j req r Hj. now rewrite lookup_nil in Hj. }
  induction fuel as [|fuel IH]; intros i embeddings w res w' H.
  - injection H as <- <-. apply Hnone.
  - destruct (Num.ltb i (Num.of_nat (length chunks))) eqn:Hlt.
    2:{ rewrite (batchLoop_exit _ _ _ _ _ _ _ Hlt) in H.
        injection H as <- <-. apply Hnone. }
    destruct (batchLoop_iteration_cases svc this chunks i w Hlt)
      as [[res0 Hres]|(c & i' & Hc & Hadd)].
    { rewrite Hres in H. injection H as <- <-. apply Hnone. }
    rewrite (batchLoop_iteration _ _ _ _ _ _ _ _ _ Hc Hlt Hadd) in H.
    cbv zeta in H.
    set (req := batchRequest c (slice chunks i i')) in *.
    destruct (svc (sent w) req) as [e|r] eqn:Hsvc.
    + injection H as <- <-. split; [reflexivity|]. exists [req].
      split; [reflexivity|]. intros [|j] req0 r0 Hj Hr0.
      * injection Hj as <-. simpl in Hr0. rewrite app_nil_r, Hsvc in Hr0.
        discriminate.
      * now rewrite lookup_cons, lookup_nil in Hj.
    + destruct (ok r) eqn:Hok.
      * destruct (maxArguments w <? N.of_nat (length (data r)))%N.
        { injection H as <- <-. split; [reflexivity|]. exists [req].
          split; [reflexivity|]. intros [|j] req0 r0 Hj Hr0 Hbad.
          - injection Hj as <-. simpl in Hr0.
            rewrite app_nil_r, Hsvc in Hr0. injection Hr0 as <-. congruence.
          - now rewrite lookup_cons, lookup_nil in Hj. }
        apply IH in H as (Hheap & reqs & Hsent & Hreqs).
        split; [exact Hheap|]. exists (req :: reqs). split.
        { rewrite Hsent. simpl. now rewrite <- app_assoc. }
        intros [|j] req0 r0 Hj Hr0 Hbad.
        -- injection Hj as <-. simpl in Hr0. rewrite app_nil_r, Hsvc in Hr0.
           injection Hr0 as <-. congruence.
        -- simpl in Hj, Hr0.
           replace (sent w ++ req :: take j reqs)
             with (sent (withRequest w req) ++ take j reqs) in Hr0
             by (simpl; now rewrite <- app_assoc).
           destruct (Hreqs j req0 r0 Hj Hr0 Hbad) as [Hlen ->].
           split; [simpl; now rewrite Hlen|reflexivity].
      * injection H as <- <-. split; [reflexivity|]. exists [req].
        split; [reflexivity|]. intros [|j] req0 r0 Hj Hr0 _.
        -- injection Hj as <-. simpl in Hr0. rewrite app_nil_r, Hsvc in Hr0.
           injection Hr0 as <-. split; reflexivity.
        -- now rewrite lookup_cons, lookup_nil in Hj.
Qed.

Lemma generate_requests svc fuel this texts w res w' :
  generate svc fuel this texts w = (res, w') ->
  heap w' = heap w /\
  exists reqs, sent w' = sent w ++ reqs /\
    forall j req r,
      reqs !! j = Some req ->
      svc (sent w ++ take j reqs) req = Responded r -> ok r = false ->
      S j = length reqs /\ res = Throw (requestFailed r).
Proof.
  unfold generate, bind.
  pose proof (splitTexts_world this texts [] w) as Hw.
  destruct (splitTexts this texts [] w) as [[chunks|e| |] w1]; simpl in Hw;
    subst w1.
  - apply batchLoop_requests.
  - intros [= <- <-]. split; [reflexivity|]. exists []. rewrite app_nil_r.
    split; [reflexivity|]. intros j req r Hj. now rewrite lookup_nil in Hj.
  - intros [= <- <-]. split; [reflexivity|]. exists []. rewrite app_nil_r.
    split; [reflexivity|]. intros j req r Hj. now rewrite lookup_nil in Hj.
  - intros [= <- <-]. split; [reflexivity|]. exists []. rewrite app_nil_r.
    split; [reflexivity|]. intros j req r Hj. now rewrite lookup_nil in Hj.
Qed.

Lemma generate_heap svc fuel this texts w :
  heap (snd (generate svc fuel this texts w)) = heap w.
Proof.
  destruct (generate svc fuel this texts w) as [res w'] eqn:H.
  now apply generate_requests in H as [Hheap _].
Qed.

(** C6.  If a request sent by [generate] is answered with a non-success
    status, the call ends with an error whose message carries that status
    code and status text; the request is the last one of the call (it is not
    sent again and no later batch is sent), and the call ends by throwing,
    so no vector is returned. *)
Theorem generate_aborts_on_failed_request (svc : Service) (fuel this : nat)
    (texts : list string) (w w' : World) (res : Completion (list Embedding))
    (j : nat) (req : Request) (r : Response) :
  generate svc fuel this texts w = (res, w') ->
  sent w' !! (length (sent w) + j) = Some req ->
  svc (take (length (sent w) + j) (sent w')) req = Responded r ->
  ok r = false ->
  res = Throw (Error ("Embedding request failed: " +:+ showNat (status r)
                      +:+ " " +:+ statusText r)) /\
  length (sent w') = S (length (sent w) + j).
Proof.
  intros Hgen Hreq Hsvc Hbad.
  apply generate_requests in Hgen as (_ & reqs & Hsent & Hreqs).
  rewrite Hsent in Hreq, Hsvc.
  rewrite lookup_app_r in Hreq by lia.
  replace (length (sent w) + j - length (sent w)) with j in Hreq by lia.
  rewrite take_app_add in Hsvc.
  destruct (Hreqs j req r Hreq Hsvc Hbad) as [Hlen ->].
  split; [reflexivity|]. rewrite Hsent, length_app. lia.
Qed.

Lemma generate_aborts_on_failed_request_witness :
  fst (generate failingSecond 10 0 ["a"; "b"; "c"; "d"; "e"] pairsWorld)
    = Throw (Error "Embedding request failed: 503 Service Unavailable") /\
  length (sent (snd (generate failingSecond 10 0 ["a"; "b"; "c"; "d"; "e"]
                       pairsWorld))) = 2.
Proof.
  destruct (generate failingSecond 10 0 ["a"; "b"; "c"; "d"; "e"] pairsWorld)
    as [res w'] eqn:Hgen.
  pose proof Hgen as Hrun. vm_compute in Hrun. injection Hrun as Hres Hw.
  destruct (generate_aborts_on_failed_request failingSecond 10 0
              ["a"; "b"; "c"; "d"; "e"] pairsWorld w' res 1
              (batchRequest pairsConfig ["c"; "d"])
              (mkResponse 503 "Service Unavailable" []) Hgen)
    as [H1 H2].
  - rewrite <- Hw. reflexivity.
  - rewrite <- Hw. reflexivity.
  - reflexivity.
  - split; [exact H1|exact H2].
Defined.

(** ** Numbers that are natural numbers *)

Lemma Qeq_inject_Z q z : q == inject_Z z -> Qnum q = (z * Zpos (Qden q))%Z.
Proof. unfold Qeq. simpl. lia. Qed.

Lemma ltb_of_nat q k len :
  q == inject_Z (Z.of_nat k) ->
  Num.ltb (Fin q) (Num.of_nat len) = (k <? len)%nat.
Proof.
  intros Hq%Qeq_inject_Z. unfold Num.ltb, Num.of_nat, Num.Qltb. simpl.
  rewrite Hq. destruct (Nat.ltb_spec k len) as [H|H].
  - apply Z.ltb_lt. nia.
  - apply Z.ltb_ge. nia.
Qed.

Lemma toIntegerOrInfinity_of_nat q k :
  q == inject_Z (Z.of_nat k) ->
  Num.toIntegerOrInfinity (Fin q) = Num.IInt (Z.of_nat k).
Proof.
  intros Hq%Qeq_inject_Z. simpl. rewrite Hq. f_equal.
  now apply Z.quot_mul.
Qed.

Lemma clampIndex_of_nat len k :
  Num.clampIndex len (Num.IInt (Z.of_nat k)) = Nat.min k len.
Proof.
  unfold Num.clampIndex. destruct (Z.ltb_spec (Z.of_nat k) 0); lia.
Qed.

Lemma add_of_nat q k p n :
  q == inject_Z (Z.of_nat k) -> p == inject_Z (Z.of_nat n) ->
  q + p == inject_Z (Z.of_nat (k + n)).
Proof.
  intros -> ->. now rewrite <- inject_Z_plus, Nat2Z.inj_add.
Qed.

(** With natural-number bounds, [slice] is [take] after [drop]. *)
Lemma slice_of_nat {A} (arr : list A) q k p n :
  q == inject_Z (Z.of_nat k) -> p == inject_Z (Z.of_nat (k + n)) ->
  k <= length arr ->
  slice arr (Fin q) (Fin p) = take n (drop k arr).
Proof.
  intros Hq Hp Hk. unfold slice.
  rewrite (toIntegerOrInfinity_of_nat q k Hq),
    (toIntegerOrInfinity_of_nat p (k + n) Hp), !clampIndex_of_nat.
  rewrite (Nat.min_l k) by exact Hk.
  destruct (Nat.le_gt_cases (k + n) (length arr)) as [H|H].
  - rewrite Nat.min_l by exact H. f_equal. lia.
  - rewrite Nat.min_r by lia.
    rewrite !take_ge; [reflexivity| |]; rewrite length_drop; lia.
Qed.

(** ** Batches *)

Lemma batchesOfSize_nil {A} n : batchesOfSize n (@nil A) [].
Proof.
  split; [reflexivity|]. split.
  - intros k b Hk. now rewrite lookup_nil in Hk.
  - intros b Hb. discriminate Hb.
Qed.

Lemma batchesOfSize_empty_iff {A} n (chunks : list A) batches :
  batchesOfSize n chunks batches -> batches = [] <-> chunks = [].
Proof.
  intros (Hcat & _ & Hlast). split.
  - intros ->. now rewrite <- Hcat.
  - intros ->. destruct batches as [|b bs] using rev_ind; [reflexivity|].
    specialize (Hlast b (last_snoc _ _)).
    rewrite concat_app in Hcat. simpl in Hcat. rewrite app_nil_r in Hcat.
    apply app_eq_nil in Hcat as [_ ->]. simpl in Hlast. lia.
Qed.

(** Cutting the first [n] chunks off a non-empty list extends a batching of
    the rest. *)
Lemma batchesOfSize_cons {A} n (chunks : list A) batches :
  0 < n -> chunks <> [] ->
  batchesOfSize n (drop n chunks) batches ->
  batchesOfSize n chunks (take n chunks :: batches).
Proof.
  intros Hn Hne Hrest. pose proof Hrest as (Hcat & Hfull & Hlast).
  pose proof (batchesOfSize_empty_iff _ _ _ Hrest) as Hempty.
  assert (Hlen : 0 < length chunks) by (destruct chunks; [easy|simpl; lia]).
  split; [|split].
  - simpl. rewrite Hcat. apply take_drop.
  - intros [|k] b Hb Hk; simpl in Hb, Hk.
    + injection Hb as <-. rewrite length_take. apply Nat.min_l.
      destruct (Nat.le_gt_cases n (length chunks)) as [H|H]; [exact H|].
      assert (drop n chunks = []) as Hd by (apply drop_ge; lia).
      apply Hempty in Hd. subst batches. simpl in Hk. lia.
    + apply (Hfull k b Hb). lia.
  - intros b Hb. destruct batches as [|b' bs].
    + injection Hb as <-. rewrite length_take.
      assert (drop n chunks = []) as Hd by now apply Hempty.
      apply (f_equal length) in Hd. rewrite length_drop in Hd. simpl in Hd.
      lia.
    + apply Hlast. exact Hb.
Qed.

(** ** The pipeline with a whole-number [chunkSize] *)

Lemma splitTexts_splitter this texts chunks w c f :
  configOf w this = Some c -> prop c "splitter" = JFun f ->
  splitsFit f texts w ->
  splitTexts this texts chunks w = (Return (chunks ++ concat (map f texts)), w).
Proof.
  intros Hc Hf Hfit. revert chunks.
  induction Hfit as [|text texts Htext _ IH]; intros chunks; simpl.
  - now rewrite app_nil_r.
  - unfold bind. rewrite (readConfigProp_configOf this "splitter" w c Hc), Hf.
    rewrite (push_fits chunks (f text) w Htext), IH.
    now rewrite <- app_assoc.
Qed.

Lemma withRequests_cons w req reqs :
  withRequests (withRequest w req) reqs = withRequests w (req :: reqs).
Proof. unfold withRequests, withRequest. simpl. now rewrite <- app_assoc. Qed.

Lemma withRequests_nil w : withRequests w [] = w.
Proof. unfold withRequests. rewrite app_nil_r. now destruct w. Qed.

Lemma batchLoop_whole_chunkSize svc this chunks c q n :
  prop c "chunkSize" = JNum (Fin q) -> q == inject_Z (Z.of_nat n) -> 0 < n ->
  answersPerChunk svc ->
  forall fuel k qi embeddings w,
    configOf w this = Some c ->
    qi == inject_Z (Z.of_nat k) ->
    (N.of_nat (Nat.min n (length chunks)) <= maxArguments w)%N ->
    length chunks - k < fuel ->
    exists reqs replies,
      batchLoop svc this chunks fuel (Fin qi) embeddings w
      = (Return (embeddings ++ concat (map data replies)),
         withRequests w reqs) /\
      batchesOfSize n (drop k chunks) (map input reqs) /\
      Forall2 (fun req r => ok r = true /\ length (data r) = length (input req))
        reqs replies /\
      forall j req r,
        reqs !! j = Some req -> replies !! j = Some r ->
        svc (sent w ++ take j reqs) req = Responded r.
Proof.
  intros Hcs Hq Hn Hsvc.
  induction fuel as [|fuel IH]; intros k qi embeddings w Hc Hqi Hmax Hfuel;
    [lia|].
  destruct (Nat.ltb_spec k (length chunks)) as [Hk|Hk].
  - assert (Hadd : forall w', addValue (Fin qi) (prop c "chunkSize") w'
                              = (Return (Fin (qi + q)), w'))
      by (intros w'; now rewrite Hcs).
    rewrite (batchLoop_iteration _ _ _ _ _ _ _ _ _ Hc
               (eq_trans (ltb_of_nat qi k _ Hqi) (proj2 (Nat.ltb_lt _ _) Hk))
               Hadd).
    cbv zeta.
    rewrite (slice_of_nat chunks qi k (qi + q) n Hqi
               (add_of_nat _ _ _ _ Hqi Hq)) by lia.
    set (batch := take n (drop k chunks)).
    destruct (Hsvc (sent w) (batchRequest c batch)) as (r & Hr & Hok & Hdata).
    rewrite Hr, Hok.
    assert (Hfit : (maxArguments w <? N.of_nat (length (data r)))%N = false).
    { apply N.ltb_ge. rewrite Hdata. simpl. subst batch.
      rewrite length_take, length_drop. lia. }
    rewrite Hfit.
    destruct (IH (k + n) (qi + q)%Q (embeddings ++ data r)
                (withRequest w (batchRequest c batch)))
      as (reqs & replies & -> & Hbatches & Hall & Hreplies).
    + exact Hc.
    + now apply add_of_nat.
    + exact Hmax.
    + lia.
    + exists (batchRequest c batch :: reqs), (r :: replies).
      split; [|split; [|split]].
      * rewrite withRequests_cons. simpl. now rewrite <- app_assoc.
      * simpl. subst batch. apply batchesOfSize_cons; [exact Hn| |].
        -- intros Hd. apply (f_equal length) in Hd.
           rewrite length_drop in Hd. simpl in Hd. lia.
        -- now rewrite drop_drop.
      * constructor; [now split|exact Hall].
      * intros [|j] req0 r0 Hj Hr0.
        -- injection Hj as <-. injection Hr0 as <-. simpl.
           now rewrite app_nil_r.
        -- simpl in Hj, Hr0. specialize (Hreplies j req0 r0 Hj Hr0).
           simpl in Hreplies. rewrite <- app_assoc in Hreplies.
           exact Hreplies.
  - rewrite batchLoop_exit
      by (rewrite (ltb_of_nat qi k _ Hqi); now apply Nat.ltb_ge).
    exists [], []. rewrite drop_ge by exact Hk. simpl.
    rewrite app_nil_r, withRequests_nil.
    split; [reflexivity|]. split; [apply batchesOfSize_nil|].
    split; [constructor|]. intros j req r Hj. now rewrite lookup_nil in Hj.
Qed.

Lemma concat_data_length (reqs : list Request) (replies : list Response) :
  Forall2 (fun req r => ok r = true /\ length (data r) = length (input req))
    reqs replies ->
  length (concat (map data replies)) = length (concat (map input reqs)).
Proof.
  induction 1 as [|req r reqs replies [_ H] _ IH]; [reflexivity|].
  simpl. rewrite !length_app. now rewrite H, IH.
Qed.

Lemma concat_data_embed embed (reqs : list Request) (replies : list Response) :
  Forall2 (fun req r => data r = map embed (input req)) reqs replies ->
  concat (map data replies) = map embed (concat (map input reqs)).
Proof.
  induction 1 as [|req r reqs replies H _ IH]; [reflexivity|].
  simpl. now rewrite map_app, H, IH.
Qed.

Lemma generate_whole_chunkSize svc this texts w c f q n fuel :
  configOf w this = Some c ->
  prop c "splitter" = JFun f ->
  prop c "chunkSize" = JNum (Fin q) -> q == inject_Z (Z.of_nat n) -> 0 < n ->
  answersPerChunk svc ->
  splitsFit f texts w ->
  (N.of_nat (Nat.min n (length (concat (map f texts)))) <= maxArguments w)%N ->
  length (concat (map f texts)) < fuel ->
  exists reqs replies,
    generate svc fuel this texts w
    = (Return (concat (map data replies)), withRequests w reqs) /\
    batchesOfSize n (concat (map f texts)) (map input reqs) /\
    Forall2 (fun req r => ok r = true /\ length (data r) = length (input req))
      reqs replies /\
    forall j req r,
      reqs !! j = Some req -> replies !! j = Some r ->
      svc (sent w ++ take j reqs) req = Responded r.
Proof.
  intros Hc Hf Hcs Hq Hn Hsvc Hfit Hmax Hfuel.
  destruct (batchLoop_whole_chunkSize svc this (concat (map f texts))
              c q n Hcs Hq Hn Hsvc fuel 0 0%Q [] w Hc)
    as (reqs & replies & Hloop & Hrest); [reflexivity|exact Hmax|lia|].
  exists reqs, replies. split; [|exact Hrest].
  unfold generate, bind.
  rewrite (splitTexts_splitter this texts [] w c f Hc Hf Hfit). exact Hloop.
Qed.

(** The specification's end-to-end example: [splitter = text => [text]],
    [chunkSize = 2] and texts ["a"], ["b"], ["c"] give two requests, for
    ["a"; "b"] and then ["c"], and three vectors in the order of the chunks. *)
Example generate_end_to_end :
  let '(res, w) := generate echoService 10 0 ["a"; "b"; "c"] pairsWorld in
  res = Return [embedLength "a"; embedLength "b"; embedLength "c"] /\
  map input (sent w) = [["a"; "b"]; ["c"]].
Proof. vm_compute. split; reflexivity. Qed.

(** C5, as stated, fails: [chunkSize: 1.5] passes validation, and the three
    chunks of ["a"], ["b"], ["c"] are then sent as a batch of one followed by
    a batch of two, which is a batching of no size: the first batch is the
    smaller one. *)
Lemma generate_fractional_chunkSize :
  new (Some fractionalConfig) emptyWorld = (Return 0, fractionalWorld) /\
  map input
    (sent (snd (generate echoService 10 0 ["a"; "b"; "c"] fractionalWorld)))
    = [["a"]; ["b"; "c"]] /\
  forall n, ~ batchesOfSize n ["a"; "b"; "c"] [["a"]; ["b"; "c"]].
Proof.
  split; [reflexivity|]. split; [vm_compute; reflexivity|].
  intros n (_ & Hfull & Hlast).
  specialize (Hfull 0 ["a"] eq_refl). specialize (Hlast ["b"; "c"] eq_refl).
  simpl in Hfull, Hlast. lia.
Qed.

(** C5 (amended).  For an object configured with a callable [splitter] and a
    [chunkSize] that is a positive whole number [n], and a service that
    answers every request successfully with one vector per input chunk,
    [generate] applied to any list of texts builds the chunk list as the
    concatenation, in input order, of the splitter's output for each text;
    sends that list in consecutive batches of [n] chunks, only the final
    batch possibly smaller; and returns the vectors of the replies in
    request order, which is one vector per chunk, in the order of the chunks
    -- provided no split and no batch holds more elements than the engine
    accepts as arguments of one call (they are spread into [push]), and
    given enough loop steps.  [generateForQueries] is the same call. *)
Theorem generate_batches_in_order (svc : Service) (this : nat)
    (texts : list string) (w : World) (c : JsObject)
    (f : string -> list string) (q : Q) (n fuel : nat) :
  let chunks := concat (map f texts) in
  configOf w this = Some c ->
  prop c "splitter" = JFun f ->
  prop c "chunkSize" = JNum (Fin q) -> q == inject_Z (Z.of_nat n) -> 0 < n ->
  answersPerChunk svc ->
  splitsFit f texts w ->
  (N.of_nat (Nat.min n (length chunks)) <= maxArguments w)%N ->
  length chunks < fuel ->
  exists reqs replies,
    generate svc fuel this texts w
    = (Return (concat (map data replies)), withRequests w reqs) /\
    batchesOfSize n chunks (map input reqs) /\
    Forall2 (fun req r => ok r = true /\ length (data r) = length (input req))
      reqs replies /\
    (forall j req r,
       reqs !! j = Some req -> replies !! j = Some r ->
       svc (sent w ++ take j reqs) req = Responded r) /\
    length (concat (map data replies)) = length chunks /\
    (forall embed,
       Forall2 (fun req r => data r = map embed (input req)) reqs replies ->
       concat (map data replies) = map embed chunks) /\
    generateForQueries svc fuel this texts w = generate svc fuel this texts w.
Proof.
  intros chunks Hc Hf Hcs Hq Hn Hsvc Hfit Hmax Hfuel.
  destruct (generate_whole_chunkSize svc this texts w c f q n fuel
              Hc Hf Hcs Hq Hn Hsvc Hfit Hmax Hfuel)
    as (reqs & replies & Hgen & Hbatches & Hall & Hreplies).
  exists reqs, replies.
  pose proof Hbatches as (Hcat & _).
  split; [exact Hgen|]. split; [exact Hbatches|]. split; [exact Hall|].
  split; [exact Hreplies|]. split; [|split; [|reflexivity]].
  - rewrite (concat_data_length reqs replies Hall). fold chunks in Hcat.
    now rewrite Hcat.
  - intros embed Hembed. rewrite (concat_data_embed embed reqs replies Hembed).
    fold chunks in Hcat. now rewrite Hcat.
Qed.

Lemma answersPerChunk_echoService : answersPerChunk echoService.
Proof.
  intros received req. eexists. split; [reflexivity|].
  split; [reflexivity|]. simpl. apply length_map.
Qed.

Lemma generate_batches_in_order_witness :
  exists reqs replies,
    generate echoService 10 0 ["a"; "b"; "c"] pairsWorld
    = (Return (concat (map data replies)), withRequests pairsWorld reqs) /\
    batchesOfSize 2 ["a"; "b"; "c"] (map input reqs) /\
    Forall2 (fun req r => ok r = true /\ length (data r) = length (input req))
      reqs replies /\
    (forall j req r,
       reqs !! j = Some req -> replies !! j = Some r ->
       echoService (sent pairsWorld ++ take j reqs) req = Responded r) /\
    length (concat (map data replies)) = 3 /\
    (forall embed,
       Forall2 (fun req r => data r = map embed (input req)) reqs replies ->
       concat (map data replies) = map embed ["a"; "b"; "c"]) /\
    generateForQueries echoService 10 0 ["a"; "b"; "c"] pairsWorld
    = generate echoService 10 0 ["a"; "b"; "c"] pairsWorld.
Proof.
  apply (generate_batches_in_order echoService 0 ["a"; "b"; "c"]
           pairsWorld pairsConfig (fun text => [text]) 2%Q 2 10).
  - reflexivity.
  - reflexivity.
  - reflexivity.
  - reflexivity.
  - lia.
  - exact answersPerChunk_echoService.
  - repeat constructor; simpl; lia.
  - simpl. lia.
  - simpl. lia.
Defined.

(** ** The stored configuration *)

Lemma wellConfigured_heap w w' :
  heap w' = heap w -> wellConfigured w -> wellConfigured w'.
Proof. unfold wellConfigured. intros ->. trivial. Qed.

Lemma wellConfigured_withObject w o :
  wellConfigured w ->
  (config o = None \/ exists c, config o = Some c /\ accepted c) ->
  wellConfigured (withObject w o).
Proof.
  intros Hw Ho l o' Hl. simpl in Hl.
  apply lookup_app_Some in Hl as [Hl|[_ Hl]].
  - exact (Hw l o' Hl).
  - apply list_lookup_singleton_Some in Hl as [_ <-]. exact Ho.
Qed.

Lemma wellConfigured_new config w :
  wellConfigured w -> wellConfigured (snd (new config w)).
Proof.
  intros Hw. destruct config as [c|].
  - destruct (new_cases c w) as [[Hacc ->]|(e & _ & ->)]; simpl.
    + apply wellConfigured_withObject; [exact Hw|]. right. now exists c.
    + apply wellConfigured_withObject; [exact Hw|]. now left.
  - rewrite new_None. apply wellConfigured_withObject; [exact Hw|]. now left.
Qed.

Lemma wellConfigured_after c w : wellConfigured w -> wellConfigured (after c w).
Proof.
  intros Hw. destruct c; simpl.
  - now apply wellConfigured_new.
  - now apply wellConfigured_new.
  - now rewrite getConfig_world.
  - now rewrite validateConfig_raise, raise_world.
  - now rewrite validateConfigUpdate_raise, raise_world.
  - apply (wellConfigured_heap w); [apply generate_heap|exact Hw].
  - apply (wellConfigured_heap w); [apply generate_heap|exact Hw].
Qed.

Lemma byCalls_wellConfigured w : reachableByCalls w -> wellConfigured w.
Proof.
  induction 1 as [limit|c w _ IH].
  - intros l o Hl. simpl in Hl. now rewrite lookup_nil in Hl.
  - now apply wellConfigured_after.
Qed.

Lemma after_keeps_objects c w l o :
  heap w !! l = Some o -> heap (after c w) !! l = Some o.
Proof.
  intros Hl. pose proof (lookup_lt_Some _ _ _ Hl) as Hlt.
  assert (Hnew : forall config, heap (snd (new config w)) !! l = Some o).
  { intros [config|].
    - destruct (new_cases config w) as [[_ ->]|(e & _ & ->)];
        simpl snd; now rewrite lookup_withObject_old.
    - rewrite new_None. simpl snd. now rewrite lookup_withObject_old. }
  destruct c; simpl.
  - apply Hnew.
  - apply Hnew.
  - now rewrite getConfig_world.
  - now rewrite validateConfig_raise, raise_world.
  - now rewrite validateConfigUpdate_raise, raise_world.
  - now rewrite generate_heap.
  - unfold generateForQueries. now rewrite generate_heap.
Qed.

(** A [chunkSize] that passed validation is absent or a number, so the loop
    index stays a number: the embedding of [generate] covers every world
    whose stored configurations are valid. *)
Lemma accepted_chunkSize c :
  accepted c ->
  exists x, forall i w, addValue i (prop c "chunkSize") w = (Return (Num.add i x), w).
Proof.
  intros Hacc. specialize (Hacc 0 emptyWorld).
  apply validateConfig_Return_fields in Hacc as (_ & _ & _ & Hcs & _).
  destruct (prop c "chunkSize") as [| |b|x|s|f|]; try discriminate Hcs.
  - exists NaN. reflexivity.
  - exists Num.zero. reflexivity.
  - exists x. reflexivity.
Qed.

Lemma batchLoop_modelled svc this chunks fuel :
  forall i embeddings w,
    wellConfigured w ->
    fst (batchLoop svc this chunks fuel i embeddings w) <> Unmodelled.
Proof.
  induction fuel as [|fuel IH]; intros i embeddings w Hw; [discriminate|].
  destruct (Num.ltb i (Num.of_nat (length chunks))) eqn:Hlt.
  2:{ now rewrite batchLoop_exit. }
  destruct (configOf w this) as [c|] eqn:Hc.
  - assert (Hacc : accepted c).
    { unfold configOf in Hc. destruct (heap w !! this) as [o|] eqn:Ho;
        [|discriminate]. simpl in Hc.
      destruct (Hw this o Ho) as [Hn|(c' & Hc' & Hacc)]; congruence. }
    destruct (accepted_chunkSize c Hacc) as [x Hadd].
    rewrite (batchLoop_iteration _ _ _ _ _ _ _ _ _ Hc Hlt (Hadd i)).
    cbv zeta. destruct (svc _ _) as [e|r]; [discriminate|].
    destruct (ok r); [|discriminate].
    destruct (_ <? _)%N; [discriminate|].
    apply IH. now apply (wellConfigured_heap w).
  - simpl. rewrite Hlt. unfold bind.
    now rewrite (readConfigProp_unconfigured this "chunkSize" w Hc).
Qed.

Lemma generate_modelled svc fuel this texts w :
  wellConfigured w -> fst (generate svc fuel this texts w) <> Unmodelled.
Proof.
  intros Hw. unfold generate, bind.
  pose proof (splitTexts_world this texts [] w) as Hs.
  destruct (splitTexts this texts [] w) as [[chunks|e| |] w1] eqn:Hsplit;
    simpl in Hs; subst w1; try discriminate.
  - now apply batchLoop_modelled.
  - exfalso. clear Hw. revert Hsplit. generalize (@nil string).
    induction texts as [|text texts IH]; intros chunks; simpl; [discriminate|].
    unfold bind.
    pose proof (readConfigProp_world this "splitter" w) as Hr.
    destruct (readConfigProp this "splitter" w) as [[v|e'| |] w1] eqn:Hread;
      simpl in Hr; subst w1; try discriminate.
    + destruct v; try discriminate.
      destruct (push_cases chunks (f text) w) as [-> | ->];
        [apply IH|discriminate].
    + unfold readConfigProp, bind, readConfig in Hread. simpl in Hread.
      destruct (o ← heap w !! this; config o); discriminate.
Qed.

(** C9, as stated, fails: the constructor keeps the caller's object, so after
    [new OpenAIEmbeddingFunction(validConfig)] the assignment
    [validConfig.chunkSize = -1] leaves the object holding a configuration
    that [validateConfig] rejects. *)
Lemma tampered_configuration_is_stored :
  reachable tamperedWorld /\
  configOf tamperedWorld 0
    = Some (<["chunkSize" := JNum (Fin (-1))]> validConfig) /\
  validateConfig 0 (<["chunkSize" := JNum (Fin (-1))]> validConfig)
    tamperedWorld
    = (Throw (Error "chunkSize is invalid"), tamperedWorld) /\
  ~ wellConfigured tamperedWorld.
Proof.
  split; [|split; [reflexivity|split; [reflexivity|]]].
  - apply reachable_assign.
    apply (reachable_call (CallNew (Some validConfig)) emptyWorld).
    apply reachable_init.
  - intros Hw.
    destruct (Hw 0 (configured (<["chunkSize" := JNum (Fin (-1))]> validConfig))
                eq_refl) as [Hn|(c & [= <-] & Hacc)]; [discriminate Hn|].
    specialize (Hacc 0 emptyWorld). discriminate Hacc.
Qed.

(** C9 (amended).  No call of the class stores a configuration that did not
    pass full validation, and none changes an object that exists: if every
    object is unconfigured or holds a configuration that passes
    [validateConfig], the same is true after any call, and so it is in every
    world reached by calls alone.  Construction with a configuration that
    fails validation throws the validator's error and stores nothing (the
    object it leaves behind is unconfigured); construction without a
    configuration gives an unconfigured object; [validateConfig] and
    [validateConfigUpdate] leave the world as it was.  What is stored is the
    caller's object, not a copy: the property lasts as long as the caller
    leaves that object alone. *)
Theorem stored_configuration_is_validated :
  (forall c w, wellConfigured w -> wellConfigured (after c w)) /\
  (forall w, reachableByCalls w -> wellConfigured w) /\
  (forall c w l o, heap w !! l = Some o -> heap (after c w) !! l = Some o) /\
  (forall this config w e,
     validateConfig this config w = (Throw e, w) ->
     new (Some config) w = (Throw e, withObject w unconfigured)) /\
  (forall w, new None w = (Return (length (heap w)), withObject w unconfigured)) /\
  (forall this config w,
     snd (validateConfig this config w) = w /\
     snd (validateConfigUpdate this config w) = w).
Proof.
  split; [exact wellConfigured_after|].
  split; [exact byCalls_wellConfigured|].
  split; [exact after_keeps_objects|].
  split.
  { intros this config w e H. apply new_rejected.
    exact (validateConfig_any _ _ _ _ _ _ H). }
  split; [exact new_None|].
  intros this config w. rewrite validateConfig_raise, validateConfigUpdate_raise.
  split; apply raise_world.
Qed.

Lemma stored_configuration_is_validated_witness :
  wellConfigured
    (after (CallNew (Some badUrlNoModel))
       (after (CallNew (Some validConfig)) emptyWorld)) /\
  heap (after (CallValidateConfigUpdate 0 chunkSizeOnly) validWorld) !! 0
    = Some (configured validConfig) /\
  new (Some badUrlNoModel) emptyWorld
    = (Throw (Error "aiServiceUrl is invalid"), withObject emptyWorld unconfigured).
Proof.
  destruct stored_configuration_is_validated
    as (_ & Hreach & Hkeep & Hfail & _).
  split; [|split].
  - apply Hreach. do 2 apply byCalls_call. apply byCalls_init.
  - apply Hkeep. reflexivity.
  - apply (Hfail 0). reflexivity.
Defined.

(** ** Validation does not make [generate] safe *)

Lemma accepted_noSplitterConfig : accepted noSplitterConfig.
Proof. apply (accepted_intro 0 _ emptyWorld). reflexivity. Qed.

Lemma accepted_noChunkSizeConfig : accepted noChunkSizeConfig.
Proof. apply (accepted_intro 0 _ emptyWorld). reflexivity. Qed.

Lemma new_Return_configOf config w this w' :
  new (Some config) w = (Return this, w') -> configOf w' this = Some config.
Proof.
  intros Hnew.
  destruct (new_cases config w) as [[_ H]|(e & _ & H)];
    rewrite H in Hnew; [|discriminate].
  injection Hnew as <- <-.
  apply (configOf_lookup _ _ (configured config));
    [apply lookup_withObject_new|reflexivity].
Qed.

Lemma sequenceS_Left_In {Err A} (r : Struct (Either Err A)) (e : Err) :
  sequenceS r = Left e -> exists k, In (k, Left e) r.
Proof.
  intros H. destruct (allRight_or_first_Left r)
    as [Hall|(pre & k & e' & post & -> & Hpre)].
  - destruct (sequenceS_allRight r Hall) as [s Hs]. congruence.
  - rewrite (sequenceS_first_Left pre k e' post Hpre) in H.
    injection H as <-. exists k. apply in_elt.
Qed.

Lemma validateRequiredField_Left p n v e :
  validateRequiredField p n v = Left e -> exists m, e = Error m.
Proof.
  unfold validateRequiredField, E.fromNullable, E.fromPredicate.
  destruct (isNullish v); simpl; [|destruct (p v)]; intros [= <-]; eauto.
Qed.

Lemma validateOptionalField_Left p n v e :
  validateOptionalField p n v = Left e -> exists m, e = Error m.
Proof.
  unfold validateOptionalField, O.fromNullable, E.fromPredicate.
  destruct (isNullish v); simpl; [|destruct (p v)]; intros [= <-]; eauto.
Qed.

Lemma validateFieldUpdate_Left n v e :
  validateFieldUpdate n v = Left e -> exists m, e = Error m.
Proof.
  unfold validateFieldUpdate, O.fromNullable.
  destruct (isNullish v); simpl; intros [= <-]; eauto.
Qed.

(** What the validators throw is always an [Error], never a [TypeError]. *)
Lemma validators_throw_Error this config w e :
  fst (validateConfig this config w) = Throw e \/
  fst (validateConfigUpdate this config w) = Throw e ->
  exists m, e = Error m.
Proof.
  rewrite validateConfig_raise, validateConfigUpdate_raise. unfold raise.
  intros [H|H].
  - destruct (sequenceS (validateConfig_seq config)) as [e'|s] eqn:Hseq;
      [|discriminate]. injection H as ->.
    apply sequenceS_Left_In in Hseq as [k Hin]. simpl in Hin.
    repeat (destruct Hin as [[= _ Hin]|Hin];
            [first [exact (validateRequiredField_Left _ _ _ _ Hin)
                   |exact (validateOptionalField_Left _ _ _ _ Hin)]|]).
    destruct Hin.
  - destruct (sequenceS (validateConfigUpdate_seq config)) as [e'|s] eqn:Hseq;
      [|discriminate]. injection H as ->.
    apply sequenceS_Left_In in Hseq as [k Hin]. simpl in Hin.
    repeat (destruct Hin as [[= _ Hin]|Hin];
            [first [exact (validateFieldUpdate_Left _ _ _ Hin)
                   |exact (validateOptionalField_Left _ _ _ _ Hin)]|]).
    destruct Hin.
Qed.

Lemma generate_without_splitter svc fuel this text texts w c :
  configOf w this = Some c -> present (prop c "splitter") = false ->
  generate svc fuel this (text :: texts) w
  = (Throw (TypeError "this.config.splitter is not a function"), w).
Proof.
  intros Hc Hf. unfold generate, bind. simpl. unfold bind.
  rewrite (readConfigProp_configOf this "splitter" w c Hc).
  destruct (prop c "splitter"); try discriminate Hf; reflexivity.
Qed.

Lemma generate_without_chunkSize svc fuel this texts w c f :
  configOf w this = Some c -> prop c "chunkSize" = JUndefined ->
  prop c "splitter" = JFun f -> splitsFit f texts w ->
  concat (map f texts) <> [] ->
  sent (snd (generate svc (S fuel) this texts w))
  = sent w ++ [batchRequest c []].
Proof.
  intros Hc Hcs Hf Hfit Hne.
  set (chunks := concat (map f texts)) in *.
  unfold generate, bind.
  rewrite (splitTexts_splitter this texts [] w c f Hc Hf Hfit).
  simpl app. fold chunks.
  assert (Hlt : Num.ltb Num.zero (Num.of_nat (length chunks)) = true).
  { rewrite (ltb_of_nat 0 0) by reflexivity. apply Nat.ltb_lt.
    destruct chunks; [contradiction|simpl; lia]. }
  rewrite (batchLoop_iteration svc this chunks fuel Num.zero NaN [] w c
             Hc Hlt) by (intros w0; now rewrite Hcs).
  cbv zeta.
  replace (slice chunks Num.zero NaN) with (@nil string)
    by (unfold slice; simpl; now rewrite Nat.sub_diag).
  destruct (svc _ _) as [e|r]; [reflexivity|].
  destruct (ok r); [|reflexivity].
  destruct (_ <? _)%N; [reflexivity|].
  destruct fuel as [|fuel]; reflexivity.
Qed.

(** C10.  Passing [validateConfig] does not make a configuration fit for
    [generate].  A configuration without [splitter] can be accepted
    ([validConfig] without its splitter is), and on an object constructed
    with any such configuration [generate] rejects every non-empty list of
    texts with a [TypeError], while the validators throw only [Error]s.  A
    configuration without [chunkSize] can be accepted too ([validConfig]
    without its [chunkSize] is), and on an object constructed with any such
    configuration that has a splitter, [generate] sends, whenever there is
    a chunk to send, exactly one request, with an empty batch: the chunks
    are not partitioned. *)
Theorem validated_config_can_break_generate :
  (forall this config w e,
     fst (validateConfig this config w) = Throw e \/
     fst (validateConfigUpdate this config w) = Throw e ->
     exists m, e = Error m) /\
  (accepted noSplitterConfig /\
   present (prop noSplitterConfig "splitter") = false) /\
  (forall config svc fuel text texts w this w',
     new (Some config) w = (Return this, w') ->
     present (prop config "splitter") = false ->
     generate svc fuel this (text :: texts) w'
     = (Throw (TypeError "this.config.splitter is not a function"), w')) /\
  (accepted noChunkSizeConfig /\
   prop noChunkSizeConfig "chunkSize" = JUndefined /\
   prop noChunkSizeConfig "splitter" = JFun (fun text => [text])) /\
  (forall config f svc fuel texts w this w',
     new (Some config) w = (Return this, w') ->
     prop config "chunkSize" = JUndefined ->
     prop config "splitter" = JFun f ->
     splitsFit f texts w' ->
     concat (map f texts) <> [] ->
     exists req,
       sent (snd (generate svc (S fuel) this texts w')) = sent w' ++ [req] /\
       input req = [] /\
       forall n, ~ batchesOfSize n (concat (map f texts)) [input req]).
Proof.
  split; [exact validators_throw_Error|].
  split; [split; [exact accepted_noSplitterConfig|reflexivity]|].
  split.
  { intros config svc fuel text texts w this w' Hc%new_Return_configOf Hf.
    now apply (generate_without_splitter svc fuel this text texts w' config). }
  split;
    [split; [exact accepted_noChunkSizeConfig|split; reflexivity]|].
  intros config f svc fuel texts w this w' Hc%new_Return_configOf Hcs Hf
    Hfit Hne.
  exists (batchRequest config []).
  split; [|split; [reflexivity|]].
  - now apply (generate_without_chunkSize svc fuel this texts w' config f).
  - intros n (Hcat & _). simpl in Hcat. now symmetry in Hcat.
Qed.

Lemma validated_config_can_break_generate_witness :
  generate echoService 10 0 ["a"; "b"; "c"]
    (withObject emptyWorld (configured noSplitterConfig))
  = (Throw (TypeError "this.config.splitter is not a function"),
     withObject emptyWorld (configured noSplitterConfig)) /\
  exists req,
    sent (snd (generate echoService 10 0 ["a"; "b"; "c"]
                 (withObject emptyWorld (configured noChunkSizeConfig))))
    = sent (withObject emptyWorld (configured noChunkSizeConfig)) ++ [req] /\
    input req = [] /\
    forall n, ~ batchesOfSize n ["a"; "b"; "c"] [input req].
Proof.
  destruct validated_config_can_break_generate as (_ & _ & Hf & _ & Hcs).
  split.
  - apply (Hf noSplitterConfig echoService 10 "a" ["b"; "c"] emptyWorld 0);
      reflexivity.
  - apply (Hcs noChunkSizeConfig (fun text => [text]) echoService 9
             ["a"; "b"; "c"] emptyWorld 0).
    + reflexivity.
    + reflexivity.
    + reflexivity.
    + repeat constructor; simpl; lia.
    + discriminate.
Defined.

(** ** Validation as a first error *)

Lemma sequenceS_firstError (r : Struct Validation) :
  match sequenceS r with Left e => Some e | Right _ => None end
  = firstError (map (fun kv => outcome (snd kv)) r).
Proof.
  destruct (allRight_or_first_Left r)
    as [Hall|(pre & k & e & post & -> & Hpre)].
  - destruct (sequenceS_allRight r Hall) as [s ->].
    induction Hall as [|[k [e|a]] r Hk _ IH]; [reflexivity|discriminate Hk|].
    exact IH.
  - rewrite (sequenceS_first_Left pre k e post Hpre), map_app.
    induction Hpre as [|[k' [e'|a]] pre Hk _ IH];
      [reflexivity|discriminate Hk|]. exact IH.
Qed.

Lemma raise_firstError seq w :
  raise seq w
  = match firstError (map (fun kv => outcome (snd kv)) seq) with
    | Some e => (Throw e, w)
    | None => (Return tt, w)
    end.
Proof.
  rewrite <- sequenceS_firstError. unfold raise.
  now destruct (sequenceS seq).
Qed.

Lemma outcome_validateFieldUpdate n v :
  outcome (validateFieldUpdate n v)
  = if present v then Some (Error ("Updating " +:+ n +:+ " is not allowed"))
    else None.
Proof.
  unfold validateFieldUpdate, O.fromNullable, present.
  now destruct (isNullish v).
Qed.

Lemma outcome_validateOptionalField p n v :
  outcome (validateOptionalField p n v)
  = if optionalOk p v then None else Some (Error (n +:+ " is invalid")).
Proof.
  unfold validateOptionalField, O.fromNullable, E.fromPredicate, optionalOk,
    present.
  destruct (isNullish v); [reflexivity|]. simpl. now destruct (p v).
Qed.

Lemma outcome_validateRequiredField p n v :
  outcome (validateRequiredField p n v)
  = if present v
    then if p v then None else Some (Error (n +:+ " is invalid"))
    else Some (Error (n +:+ " is required")).
Proof.
  unfold validateRequiredField, E.fromNullable, E.fromPredicate, present.
  destruct (isNullish v); [reflexivity|]. simpl. now destruct (p v).
Qed.

(** Acceptance of an update, field by field. *)
Lemma validateConfigUpdate_Return_fields this newConfig w :
  validateConfigUpdate this newConfig w = (Return tt, w) <->
  Forall (fun f => present (prop newConfig f) = false) immutableFields /\
  optionalOk isPositiveNumber (prop newConfig "chunkSize") = true /\
  optionalOk isFunction (prop newConfig "splitter") = true.
Proof.
  rewrite validateConfigUpdate_raise, raise_firstError.
  unfold validateConfigUpdate_seq, immutableFields. simpl map.
  rewrite !outcome_validateFieldUpdate, !outcome_validateOptionalField.
  rewrite !Forall_cons, Forall_nil.
  destruct (present (prop newConfig "model"));
    [simpl; split; [discriminate|intros ((?&_)&_); discriminate]|].
  destruct (present (prop newConfig "encodingFormat"));
    [simpl; split; [discriminate|intros ((_&?&_)&_); discriminate]|].
  destruct (present (prop newConfig "chunkStrategy"));
    [simpl; split; [discriminate|intros ((_&_&?&_)&_); discriminate]|].
  destruct (present (prop newConfig "chunkOverlap"));
    [simpl; split; [discriminate|intros ((_&_&_&?&_)&_); discriminate]|].
  destruct (optionalOk isPositiveNumber (prop newConfig "chunkSize"));
    [|simpl; split; [discriminate|intros (_&?&_); discriminate]].
  destruct (present (prop newConfig "aiServiceUrl"));
    [simpl; split; [discriminate|intros ((_&_&_&_&?&_)&_); discriminate]|].
  destruct (optionalOk isFunction (prop newConfig "splitter"));
    [|simpl; split; [discriminate|intros (_&_&?); discriminate]].
  simpl. tauto.
Qed.

(** X1.  [validateConfigUpdate] accepts an update exactly when none of
    [model], [encodingFormat], [chunkStrategy], [chunkOverlap],
    [aiServiceUrl] carries a value, [chunkSize] is absent or a number greater
    than zero, and [splitter] is absent or a function. *)
Theorem validateConfigUpdate_accepts_iff (this : nat) (newConfig : JsObject)
    (w : World) :
  validateConfigUpdate this newConfig w = (Return tt, w) <->
  Forall (fun f => present (prop newConfig f) = false) immutableFields /\
  optionalOk isPositiveNumber (prop newConfig "chunkSize") = true /\
  optionalOk isFunction (prop newConfig "splitter") = true.
Proof. apply validateConfigUpdate_Return_fields. Qed.

Lemma validateConfigUpdate_accepts_iff_witness :
  validateConfigUpdate 0 chunkSizeOnly emptyWorld = (Return tt, emptyWorld).
Proof.
  apply (proj2 (validateConfigUpdate_accepts_iff 0 chunkSizeOnly emptyWorld)).
  split; [repeat constructor|split; reflexivity].
Defined.

(** X2.  No object passes both validators: what [validateConfig] accepts,
    [validateConfigUpdate] rejects for its [model], and what
    [validateConfigUpdate] accepts, [validateConfig] rejects for its missing
    [aiServiceUrl]. *)
Theorem validators_accept_disjoint (this : nat) (config : JsObject) (w : World) :
  (validateConfig this config w = (Return tt, w) ->
   validateConfigUpdate this config w
   = (Throw (Error "Updating model is not allowed"), w)) /\
  (validateConfigUpdate this config w = (Return tt, w) ->
   validateConfig this config w
   = (Throw (Error "aiServiceUrl is required"), w)).
Proof.
  split.
  - intros (_ & Hmodel%isString_present & _)%validateConfig_Return_fields.
    rewrite validateConfigUpdate_raise, raise_firstError.
    unfold validateConfigUpdate_seq. simpl map.
    now rewrite outcome_validateFieldUpdate, Hmodel.
  - intros (Himm & _)%validateConfigUpdate_Return_fields.
    unfold immutableFields in Himm. rewrite !Forall_cons in Himm.
    destruct Himm as (_ & _ & _ & _ & Hurl & _).
    rewrite validateConfig_raise, raise_firstError.
    unfold validateConfig_seq. simpl map.
    now rewrite outcome_validateRequiredField, Hurl.
Qed.

Lemma validators_accept_disjoint_witness :
  validateConfigUpdate 0 validConfig emptyWorld
    = (Throw (Error "Updating model is not allowed"), emptyWorld) /\
  validateConfig 0 chunkSizeOnly emptyWorld
    = (Throw (Error "aiServiceUrl is required"), emptyWorld).
Proof.
  split.
  - apply (proj1 (validators_accept_disjoint 0 validConfig emptyWorld)).
    reflexivity.
  - apply (proj2 (validators_accept_disjoint 0 chunkSizeOnly emptyWorld)).
    reflexivity.
Defined.

(** ** What validation looks at *)

Lemma sameValue_present v1 v2 : sameValue v1 v2 -> present v1 = present v2.
Proof. intros [->|[-> ->]]; reflexivity. Qed.

Lemma outcome_required_same p n v1 v2 :
  sameValue v1 v2 ->
  outcome (validateRequiredField p n v1) = outcome (validateRequiredField p n v2).
Proof.
  intros H. rewrite !outcome_validateRequiredField.
  destruct H as [->|[-> ->]]; reflexivity.
Qed.

Lemma outcome_optional_same p n v1 v2 :
  sameValue v1 v2 ->
  outcome (validateOptionalField p n v1) = outcome (validateOptionalField p n v2).
Proof.
  intros H. rewrite !outcome_validateOptionalField. unfold optionalOk.
  destruct H as [->|[-> ->]]; reflexivity.
Qed.

Lemma outcome_update_same n v1 v2 :
  sameValue v1 v2 ->
  outcome (validateFieldUpdate n v1) = outcome (validateFieldUpdate n v2).
Proof.
  intros H. rewrite !outcome_validateFieldUpdate.
  now rewrite (sameValue_present v1 v2 H).
Qed.

(** X3.  The validators look at the seven configuration fields only, and do
    not tell [undefined], [null] and a missing key apart: two objects that
    agree on the seven fields, up to which kind of absent value a field
    holds, get the same verdict from [validateConfig] and from
    [validateConfigUpdate].  Any other key is ignored. *)
Theorem validation_reads_seven_fields (this : nat) (c1 c2 : JsObject)
    (w : World) :
  sameFields c1 c2 ->
  validateConfig this c1 w = validateConfig this c2 w /\
  validateConfigUpdate this c1 w = validateConfigUpdate this c2 w.
Proof.
  intros H.
  assert (Hk : forall k, In k fieldOrder -> sameValue (prop c1 k) (prop c2 k))
    by (intros k Hin; apply H, list_elem_of_In, Hin).
  unfold fieldOrder in Hk. simpl in Hk.
  rewrite !validateConfig_raise, !validateConfigUpdate_raise, !raise_firstError.
  unfold validateConfig_seq, validateConfigUpdate_seq. simpl map.
  rewrite (outcome_required_same isString "aiServiceUrl" _ _
       (Hk "aiServiceUrl" ltac:(tauto))),
    (outcome_required_same isString "model" _ _
       (Hk "model" ltac:(tauto))),
    (outcome_optional_same isString "encodingFormat" _ _
       (Hk "encodingFormat" ltac:(tauto))),
    (outcome_optional_same isPositiveNumber "chunkSize" _ _
       (Hk "chunkSize" ltac:(tauto))),
    (outcome_optional_same isNonNegativeNumber "chunkOverlap" _ _
       (Hk "chunkOverlap" ltac:(tauto))),
    (outcome_optional_same isString "chunkStrategy" _ _
       (Hk "chunkStrategy" ltac:(tauto))),
    (outcome_optional_same isFunction "splitter" _ _
       (Hk "splitter" ltac:(tauto))),
    (outcome_update_same "model" _ _
       (Hk "model" ltac:(tauto))),
    (outcome_update_same "encodingFormat" _ _
       (Hk "encodingFormat" ltac:(tauto))),
    (outcome_update_same "chunkStrategy" _ _
       (Hk "chunkStrategy" ltac:(tauto))),
    (outcome_update_same "chunkOverlap" _ _
       (Hk "chunkOverlap" ltac:(tauto))),
    (outcome_update_same "aiServiceUrl" _ _
       (Hk "aiServiceUrl" ltac:(tauto))).
  split; reflexivity.
Qed.

Lemma validation_reads_seven_fields_witness :
  validateConfig 0
    (<["note" := JObj]> (<["chunkOverlap" := JNull]> validConfig)) emptyWorld
  = validateConfig 0 (delete "chunkOverlap" validConfig) emptyWorld /\
  validateConfigUpdate 0
    (<["note" := JObj]> (<["chunkOverlap" := JNull]> validConfig)) emptyWorld
  = validateConfigUpdate 0 (delete "chunkOverlap" validConfig) emptyWorld.
Proof.
  apply validation_reads_seven_fields. intros k Hk. unfold fieldOrder in Hk.
  repeat (apply elem_of_cons in Hk as [->|Hk];
          [first [left; reflexivity|right; split; reflexivity]|]).
  now apply elem_of_nil in Hk.
Defined.

Lemma prop_insert_eq (c : JsObject) k v : prop (<[k := v]> c) k = v.
Proof. unfold prop. now rewrite lookup_insert_eq. Qed.

Lemma prop_insert_ne (c : JsObject) k k' v :
  k <> k' -> prop (<[k := v]> c) k' = prop c k'.
Proof. intros H. unfold prop. now rewrite lookup_insert_ne. Qed.

Lemma prop_delete_eq (c : JsObject) k : prop (delete k c) k = JUndefined.
Proof. unfold prop. now rewrite lookup_delete_eq. Qed.

Lemma prop_delete_ne (c : JsObject) k k' :
  k <> k' -> prop (delete k c) k' = prop c k'.
Proof. intros H. unfold prop. now rewrite lookup_delete_ne. Qed.

Lemma optionalOk_valid p v : p v = true -> optionalOk p v = true.
Proof. intros H. unfold optionalOk. rewrite H. apply orb_true_r. Qed.

(** X4.  The fields are validated one by one, never against each other: in
    an accepted configuration, any field may be replaced by any value that
    satisfies that field's own predicate, and any optional field may be
    removed, and the configuration is still accepted.  In particular a
    [chunkOverlap] larger than [chunkSize] is accepted. *)
Theorem field_checks_are_independent (config : JsObject) (r : Rule)
    (v : JsValue) :
  accepted config -> r ∈ fullRules ->
  (present v = true -> predicate r v = true ->
   accepted (<[field r := v]> config)) /\
  (required r = false -> accepted (delete (field r) config)).
Proof.
  intros Hacc Hr.
  specialize (Hacc 0 emptyWorld).
  apply validateConfig_Return_fields in Hacc
    as (Hurl & Hmodel & Hformat & Hsize & Hoverlap & Hstrategy & Hsplitter).
  unfold fullRules in Hr.
  repeat (apply elem_of_cons in Hr as [->|Hr]; [
    split; [intros Hv Hp|intros Hreq; try discriminate Hreq];
    apply (accepted_intro 0 _ emptyWorld), validateConfig_Return_fields;
    simpl field;
    rewrite ?prop_insert_eq, ?prop_delete_eq, ?prop_insert_ne,
      ?prop_delete_ne by discriminate;
    try (simpl in Hp);
    repeat split; first [assumption|now apply optionalOk_valid|reflexivity] |]).
  now apply elem_of_nil in Hr.
Qed.

Lemma field_checks_are_independent_witness :
  accepted (<["chunkOverlap" := JNum (Fin 1000)]> validConfig) /\
  accepted (delete "chunkOverlap" validConfig).
Proof.
  destruct (field_checks_are_independent validConfig
              (mkRule "chunkOverlap" false isNonNegativeNumber)
              (JNum (Fin 1000))) as [Hset Hdel].
  - apply (accepted_intro 0 _ emptyWorld). reflexivity.
  - apply list_elem_of_In. unfold fullRules. simpl. tauto.
  - split; [apply Hset; reflexivity|apply Hdel; reflexivity].
Defined.

(** ** Objects without a configuration, and nothing to send *)

Lemma configOf_Some_lookup w this c :
  configOf w this = Some c ->
  exists o, heap w !! this = Some o /\ config o = Some c.
Proof.
  unfold configOf. destruct (heap w !! this) as [o|]; [|discriminate].
  simpl. eauto.
Qed.

(** X5.  [getConfig] throws a [TypeError] (the read of
    [this.config.aiServiceUrl] fails) exactly when the object holds no
    configuration; nothing in the world changes. *)
Theorem getConfig_unconfigured (this : nat) (w : World) :
  configOf w this = None <->
  getConfig this w
  = (Throw (TypeError
       "Cannot read properties of undefined (reading 'aiServiceUrl')"), w).
Proof.
  split.
  - intros H. unfold getConfig, bind.
    now rewrite (readConfigProp_unconfigured this "aiServiceUrl" w H).
  - intros H. destruct (configOf w this) as [c|] eqn:Hc; [|reflexivity].
    apply configOf_Some_lookup in Hc as (o & Ho & Hc).
    rewrite (getConfig_configured this w o c Ho Hc) in H. discriminate H.
Qed.

Lemma getConfig_unconfigured_witness :
  getConfig 0 unconfiguredWorld
  = (Throw (TypeError
       "Cannot read properties of undefined (reading 'aiServiceUrl')"),
     unconfiguredWorld).
Proof. apply (proj1 (getConfig_unconfigured 0 unconfiguredWorld)). reflexivity. Defined.

(** X6.  On an object that holds no configuration, [generate] with at least
    one text is rejected with a [TypeError] (the read of
    [this.config.splitter] fails), whatever the service and the step budget,
    and no request is sent. *)
Theorem generate_unconfigured (svc : Service) (fuel this : nat)
    (text : string) (texts : list string) (w : World) :
  configOf w this = None ->
  generate svc fuel this (text :: texts) w
  = (Throw (TypeError
       "Cannot read properties of undefined (reading 'splitter')"), w).
Proof.
  intros H. unfold generate, bind. simpl. unfold bind.
  now rewrite (readConfigProp_unconfigured this "splitter" w H).
Qed.

Lemma generate_unconfigured_witness :
  generate echoService 10 0 ["a"; "b"] unconfiguredWorld
  = (Throw (TypeError
       "Cannot read properties of undefined (reading 'splitter')"),
     unconfiguredWorld).
Proof. apply generate_unconfigured. reflexivity. Defined.

Lemma splitsFit_no_chunks f texts w :
  concat (map f texts) = [] -> splitsFit f texts w.
Proof.
  induction texts as [|text texts IH]; intros H; [constructor|].
  simpl in H. apply app_eq_nil in H as [Ht H].
  constructor; [rewrite Ht; simpl; lia|now apply IH].
Qed.

(** X7.  When there is nothing to embed, [generate] resolves to the empty
    list without sending a request: for the empty list of texts this holds
    on every object, configured or not, and with any [chunkSize]; for a
    configured object it holds whenever the splitter yields no chunk. *)
Theorem generate_nothing_to_send (svc : Service) (fuel this : nat)
    (texts : list string) (w : World) :
  generate svc (S fuel) this [] w = (Return [], w) /\
  (forall c f,
     configOf w this = Some c -> prop c "splitter" = JFun f ->
     concat (map f texts) = [] ->
     generate svc (S fuel) this texts w = (Return [], w)).
Proof.
  split; [reflexivity|]. intros c f Hc Hf Hnil. unfold generate, bind.
  rewrite (splitTexts_splitter this texts [] w c f Hc Hf
             (splitsFit_no_chunks f texts w Hnil)).
  simpl app. rewrite Hnil. reflexivity.
Qed.

Lemma generate_nothing_to_send_witness :
  generate echoService 1 0 ["a"; "b"]
    (withObject emptyWorld
       (configured (<["splitter" := JFun (fun _ => [])]> validConfig)))
  = (Return [],
     withObject emptyWorld
       (configured (<["splitter" := JFun (fun _ => [])]> validConfig))).
Proof.
  apply (proj2 (generate_nothing_to_send echoService 0 0 ["a"; "b"] _)
           (<["splitter" := JFun (fun _ => [])]> validConfig) (fun _ => []));
    reflexivity.
Defined.

(** ** A [chunkSize] of [null] *)

Lemma batchLoop_null_chunkSize svc this chunks c :
  prop c "chunkSize" = JNull -> answersPerChunk svc -> chunks <> [] ->
  forall fuel qi embeddings w,
    configOf w this = Some c -> qi == inject_Z (Z.of_nat 0) ->
    exists reqs,
      batchLoop svc this chunks fuel (Fin qi) embeddings w
      = (Pending, withRequests w reqs) /\
      length reqs = fuel /\ Forall (fun req => input req = []) reqs.
Proof.
  intros Hcs Hsvc Hne.
  induction fuel as [|fuel IH]; intros qi embeddings w Hc Hqi.
  - exists []. simpl. rewrite withRequests_nil. split; [reflexivity|].
    split; [reflexivity|constructor].
  - assert (Hlt : Num.ltb (Fin qi) (Num.of_nat (length chunks)) = true).
    { rewrite (ltb_of_nat qi 0 _ Hqi). apply Nat.ltb_lt.
      destruct chunks; [contradiction|simpl; lia]. }
    assert (Hadd : forall w', addValue (Fin qi) (prop c "chunkSize") w'
                              = (Return (Fin (qi + 0)), w'))
      by (intros w'; now rewrite Hcs).
    assert (Hqi' : qi + 0 == inject_Z (Z.of_nat (0 + 0)))
      by (rewrite Hqi; reflexivity).
    rewrite (batchLoop_iteration _ _ _ _ _ _ _ _ _ Hc Hlt Hadd). cbv zeta.
    rewrite (slice_of_nat chunks qi 0 (qi + 0) 0 Hqi Hqi') by lia.
    rewrite take_0.
    destruct (Hsvc (sent w) (batchRequest c [])) as (r & -> & -> & Hdata).
    simpl in Hdata. rewrite Hdata.
    replace (maxArguments w <? N.of_nat 0)%N with false
      by (symmetry; apply N.ltb_ge; lia).
    destruct (IH (qi + 0)%Q (embeddings ++ data r)
                (withRequest w (batchRequest c [])) Hc Hqi')
      as (reqs & -> & Hlen & Hall).
    exists (batchRequest c [] :: reqs). rewrite withRequests_cons.
    split; [reflexivity|].
    split; [simpl; now rewrite Hlen|]. constructor; [reflexivity|exact Hall].
Qed.

(** X8.  A [chunkSize] of [null] passes validation, and then [generate]
    never settles when there is a chunk to send and the service keeps
    answering: the loop index does not advance, so within any step budget
    the call is still pending, having sent one request per step, each with
    an empty batch.  (The splits are taken to fit the arguments of one call;
    a longer one makes the first loop throw instead.) *)
Theorem generate_null_chunkSize_never_settles (svc : Service) (this : nat)
    (texts : list string) (w : World) (c : JsObject)
    (f : string -> list string) (fuel : nat) :
  configOf w this = Some c ->
  prop c "splitter" = JFun f -> prop c "chunkSize" = JNull ->
  answersPerChunk svc -> splitsFit f texts w ->
  concat (map f texts) <> [] ->
  optionalOk isPositiveNumber (prop c "chunkSize") = true /\
  exists reqs,
    generate svc fuel this texts w = (Pending, withRequests w reqs) /\
    length reqs = fuel /\ Forall (fun req => input req = []) reqs.
Proof.
  intros Hc Hf Hcs Hsvc Hfit Hne. split; [now rewrite Hcs|].
  unfold generate, bind.
  rewrite (splitTexts_splitter this texts [] w c f Hc Hf Hfit). simpl app.
  apply (batchLoop_null_chunkSize svc this _ c Hcs Hsvc Hne);
    [exact Hc|reflexivity].
Qed.

Lemma generate_null_chunkSize_never_settles_witness :
  new (Some nullChunkSizeConfig) emptyWorld = (Return 0, nullChunkSizeWorld) /\
  exists reqs,
    generate echoService 5 0 ["a"] nullChunkSizeWorld
    = (Pending, withRequests nullChunkSizeWorld reqs) /\
    length reqs = 5 /\ Forall (fun req => input req = []) reqs.
Proof.
  split; [reflexivity|].
  apply (generate_null_chunkSize_never_settles echoService 0
           ["a"] nullChunkSizeWorld nullChunkSizeConfig (fun text => [text]) 5).
  - reflexivity.
  - reflexivity.
  - reflexivity.
  - exact answersPerChunk_echoService.
  - repeat constructor; simpl; lia.
  - discriminate.
Defined.

(** ** What the requests of a call look like *)

Lemma slice_take_drop {A} (arr : list A) a b :
  exists k n, slice arr a b = take n (drop k arr).
Proof. unfold slice. eauto. Qed.

Lemma batchLoop_sends_config svc this chunks fuel :
  forall i embeddings w,
    exists reqs,
      sent (snd (batchLoop svc this chunks fuel i embeddings w))
      = sent w ++ reqs /\
      forall req, req ∈ reqs ->
        exists c k n, configOf w this = Some c /\
          req = batchRequest c (take n (drop k chunks)).
Proof.
  assert (Hnone : forall w : World,
            exists reqs : list Request, sent w = sent w ++ reqs /\
              forall req, req ∈ reqs ->
                exists c k n, configOf w this = Some c /\
                  req = batchRequest c (take n (drop k chunks))).
  { intros w. exists []. rewrite app_nil_r. split; [reflexivity|].
    intros req Hreq. now apply elem_of_nil in Hreq. }
  induction fuel as [|fuel IH]; intros i embeddings w; [apply Hnone|].
  destruct (Num.ltb i (Num.of_nat (length chunks))) eqn:Hlt.
  2:{ rewrite (batchLoop_exit _ _ _ _ _ _ _ Hlt). apply Hnone. }
  destruct (batchLoop_iteration_cases svc this chunks i w Hlt)
    as [[res0 Hres]|(c & i' & Hc & Hadd)].
  { rewrite Hres. apply Hnone. }
  rewrite (batchLoop_iteration _ _ _ _ _ _ _ _ _ Hc Hlt Hadd). cbv zeta.
  destruct (slice_take_drop chunks i i') as (k & n & Hslice).
  set (req := batchRequest c (slice chunks i i')) in *.
  assert (Hone : forall req', req' ∈ [req] ->
            exists c k n, configOf w this = Some c /\
              req' = batchRequest c (take n (drop k chunks))).
  { intros req' ->%list_elem_of_singleton. exists c, k, n.
    split; [exact Hc|]. subst req. now rewrite Hslice. }
  destruct (svc (sent w) req) as [e|r].
  - exists [req]. split; [reflexivity|exact Hone].
  - destruct (ok r).
    + destruct (maxArguments w <? N.of_nat (length (data r)))%N;
        [exists [req]; split; [reflexivity|exact Hone]|].
      destruct (IH i' (embeddings ++ data r) (withRequest w req))
        as (reqs & Hsent & Hreqs).
      exists (req :: reqs). split.
      * rewrite Hsent. simpl. now rewrite <- app_assoc.
      * intros req' [->|Hin]%elem_of_cons.
        -- apply Hone. apply list_elem_of_singleton. reflexivity.
        -- apply Hreqs, Hin.
    + exists [req]. split; [reflexivity|exact Hone].
Qed.

Lemma splitTexts_splitter_cases this texts w c f :
  configOf w this = Some c -> prop c "splitter" = JFun f ->
  forall chunks,
    splitTexts this texts chunks w
    = (Return (chunks ++ concat (map f texts)), w) \/
    splitTexts this texts chunks w
    = (Throw (RangeError "Maximum call stack size exceeded"), w).
Proof.
  intros Hc Hf. induction texts as [|text texts IH]; intros chunks; simpl.
  - left. now rewrite app_nil_r.
  - unfold bind. rewrite (readConfigProp_configOf this "splitter" w c Hc), Hf.
    destruct (push_cases chunks (f text) w) as [-> | ->]; [|now right].
    rewrite app_assoc. apply IH.
Qed.

Lemma splitTexts_cases this texts chunks w :
  (exists c f, configOf w this = Some c /\ prop c "splitter" = JFun f /\
     splitTexts this texts chunks w
     = (Return (chunks ++ concat (map f texts)), w)) \/
  (exists res, splitTexts this texts chunks w = (res, w) /\
     (forall a, res = Return a -> texts = [] /\ a = chunks)).
Proof.
  destruct texts as [|text texts].
  { right. eexists. split; [reflexivity|]. intros a [= <-]. now split. }
  destruct (configOf w this) as [c|] eqn:Hc.
  - destruct (prop c "splitter") as [| |b|x|s|f|] eqn:Hf;
      try (right; eexists; split;
           [simpl; unfold bind;
            rewrite (readConfigProp_configOf this "splitter" w c Hc), Hf;
            reflexivity|discriminate]).
    destruct (splitTexts_splitter_cases this (text :: texts) w c f Hc Hf
                chunks) as [H|H].
    + left. exists c, f. split; [reflexivity|]. split; [exact Hf|exact H].
    + right. eexists. split; [exact H|discriminate].
  - right. eexists. split;
      [simpl; unfold bind;
       rewrite (readConfigProp_unconfigured this "splitter" w Hc);
       reflexivity|discriminate].
Qed.

(** X9.  Every request [generate] sends carries the stored configuration's
    [aiServiceUrl], [model] and [encodingFormat], and its batch is a run of
    consecutive chunks of the chunk list; an object without a configuration
    or without a callable splitter sends nothing. *)
Theorem generate_requests_carry_config (svc : Service) (fuel this : nat)
    (texts : list string) (w : World) :
  exists reqs,
    sent (snd (generate svc fuel this texts w)) = sent w ++ reqs /\
    forall req, req ∈ reqs ->
      exists c f k n,
        configOf w this = Some c /\ prop c "splitter" = JFun f /\
        url req = prop c "aiServiceUrl" /\ model req = prop c "model" /\
        encoding_format req = prop c "encodingFormat" /\
        input req = take n (drop k (concat (map f texts))).
Proof.
  unfold generate, bind.
  destruct (splitTexts_cases this texts [] w)
    as [(c & f & Hc & Hf & ->)|(res & -> & Hres)].
  - simpl app.
    destruct (batchLoop_sends_config svc this (concat (map f texts)) fuel
                Num.zero [] w) as (reqs & Hsent & Hreqs).
    exists reqs. split; [exact Hsent|]. intros req Hreq.
    destruct (Hreqs req Hreq) as (c' & k & n & Hc' & ->).
    assert (c' = c) as -> by congruence.
    exists c, f, k, n. repeat split; assumption.
  - destruct res as [chunks| | |].
    + destruct (Hres chunks eq_refl) as [-> ->].
      destruct fuel; exists []; simpl; rewrite app_nil_r;
        (split; [reflexivity|]); intros req Hreq;
        now apply elem_of_nil in Hreq.
    + exists []. simpl. rewrite app_nil_r. split; [reflexivity|].
      intros req Hreq. now apply elem_of_nil in Hreq.
    + exists []. simpl. rewrite app_nil_r. split; [reflexivity|].
      intros req Hreq. now apply elem_of_nil in Hreq.
    + exists []. simpl. rewrite app_nil_r. split; [reflexivity|].
      intros req Hreq. now apply elem_of_nil in Hreq.
Qed.

Lemma generate_requests_carry_config_witness :
  exists reqs,
    sent (snd (generate echoService 10 0 ["a"; "b"; "c"] pairsWorld))
    = sent pairsWorld ++ reqs /\
    forall req, req ∈ reqs ->
      exists c f k n,
        configOf pairsWorld 0 = Some c /\ prop c "splitter" = JFun f /\
        url req = prop c "aiServiceUrl" /\ model req = prop c "model" /\
        encoding_format req = prop c "encodingFormat" /\
        input req = take n (drop k (concat (map f ["a"; "b"; "c"]))).
Proof.
  exact (generate_requests_carry_config echoService 10 0 ["a"; "b"; "c"]
           pairsWorld).
Defined.

(** What the service answered to each request of a run of the loop. *)
Lemma batchLoop_replies svc this chunks fuel :
  forall i embeddings w res w',
    batchLoop svc this chunks fuel i embeddings w = (res, w') ->
    exists reqs, sent w' = sent w ++ reqs /\
      forall j req,
        reqs !! j = Some req ->
        match svc (sent w ++ take j reqs) req with
        | Rejected e => S j = length reqs /\ res = Throw e
        | Responded r =>
            ok r = true \/ (S j = length reqs /\ res = Throw (requestFailed r))
        end.
Proof.
  assert (Hnone : forall (w : World) (res : Completion (list Embedding)),
            exists reqs, sent w = sent w ++ reqs /\
              forall j req,
                reqs !! j = Some req ->
                match svc (sent w ++ take j reqs) req with
                | Rejected e => S j = length reqs /\ res = Throw e
                | Responded r =>
                    ok r = true \/
                    (S j = length reqs /\ res = Throw (requestFailed r))
                end).
  { intros w res. exists []. rewrite app_nil_r. split; [reflexivity|].
    intros j req Hj. now rewrite lookup_nil in Hj. }
  induction fuel as [|fuel IH]; intros i embeddings w res w' H.
  - injection H as <- <-. apply Hnone.
  - destruct (Num.ltb i (Num.of_nat (length chunks))) eqn:Hlt.
    2:{ rewrite (batchLoop_exit _ _ _ _ _ _ _ Hlt) in H.
        injection H as <- <-. apply Hnone. }
    destruct (batchLoop_iteration_cases svc this chunks i w Hlt)
      as [[res0 Hres]|(c & i' & Hc & Hadd)].
    { rewrite Hres in H. injection H as <- <-. apply Hnone. }
    rewrite (batchLoop_iteration _ _ _ _ _ _ _ _ _ Hc Hlt Hadd) in H.
    cbv zeta in H.
    set (req := batchRequest c (slice chunks i i')) in *.
    destruct (svc (sent w) req) as [e|r] eqn:Hsvc.
    + injection H as <- <-. exists [req]. split; [reflexivity|].
      intros [|j] req0 Hj.
      * injection Hj as <-. simpl. rewrite app_nil_r, Hsvc. now split.
      * now rewrite lookup_cons, lookup_nil in Hj.
    + destruct (ok r) eqn:Hok.
      * destruct (maxArguments w <? N.of_nat (length (data r)))%N.
        { injection H as <- <-. exists [req]. split; [reflexivity|].
          intros [|j] req0 Hj.
          - injection Hj as <-. simpl. rewrite app_nil_r, Hsvc. now left.
          - now rewrite lookup_cons, lookup_nil in Hj. }
        apply IH in H as (reqs & Hsent & Hreqs).
        exists (req :: reqs). split.
        { rewrite Hsent. simpl. now rewrite <- app_assoc. }
        intros [|j] req0 Hj.
        -- injection Hj as <-. simpl. rewrite app_nil_r, Hsvc. now left.
        -- simpl in Hj. specialize (Hreqs j req0 Hj). simpl in Hreqs.
           rewrite <- app_assoc in Hreqs. simpl in Hreqs. simpl.
           destruct (svc (sent w ++ req :: take j reqs) req0) as [e|r0].
           ++ destruct Hreqs as [-> ->]. now split.
           ++ destruct Hreqs as [Hr0|[-> ->]]; [now left|right; now split].
      * injection H as <- <-. exists [req]. split; [reflexivity|].
        intros [|j] req0 Hj.
        -- injection Hj as <-. simpl. rewrite app_nil_r, Hsvc.
           right. now split.
        -- now rewrite lookup_cons, lookup_nil in Hj.
Qed.

Lemma generate_replies svc fuel this texts w res w' :
  generate svc fuel this texts w = (res, w') ->
  exists reqs, sent w' = sent w ++ reqs /\
    forall j req,
      reqs !! j = Some req ->
      match svc (sent w ++ take j reqs) req with
      | Rejected e => S j = length reqs /\ res = Throw e
      | Responded r =>
          ok r = true \/ (S j = length reqs /\ res = Throw (requestFailed r))
      end.
Proof.
  unfold generate, bind.
  pose proof (splitTexts_world this texts [] w) as Hw.
  destruct (splitTexts this texts [] w) as [[chunks|e| |] w1]; simpl in Hw;
    subst w1; [apply batchLoop_replies| | |];
    intros [= <- <-]; exists []; rewrite app_nil_r;
    (split; [reflexivity|]); intros j req Hj; now rewrite lookup_nil in Hj.
Qed.

(** X10.  If [fetch] rejects for a request of [generate] (a network
    failure), the call is rejected with that very error and the request is
    the last one sent.  Every request of a call other than the last one was
    answered with a success status. *)
Theorem generate_stops_at_first_failure (svc : Service) (fuel this : nat)
    (texts : list string) (w w' : World) (res : Completion (list Embedding))
    (j : nat) (req : Request) :
  generate svc fuel this texts w = (res, w') ->
  sent w' !! (length (sent w) + j) = Some req ->
  (forall e,
     svc (take (length (sent w) + j) (sent w')) req = Rejected e ->
     res = Throw e /\ length (sent w') = S (length (sent w) + j)) /\
  (S (length (sent w) + j) < length (sent w') ->
   exists r,
     svc (take (length (sent w) + j) (sent w')) req = Responded r /\
     ok r = true).
Proof.
  intros Hgen Hreq.
  apply generate_replies in Hgen as (reqs & Hsent & Hreqs).
  rewrite Hsent in Hreq |- *.
  rewrite lookup_app_r in Hreq by lia.
  replace (length (sent w) + j - length (sent w)) with j in Hreq by lia.
  rewrite take_app_add, length_app. specialize (Hreqs j req Hreq).
  destruct (svc (sent w ++ take j reqs) req) as [e|r].
  - destruct Hreqs as [Hlen ->]. split.
    + intros e' [= <-]. split; [reflexivity|lia].
    + lia.
  - split; [discriminate|]. intros Hlt. exists r. split; [reflexivity|].
    destruct Hreqs as [Hok|[Hlen _]]; [exact Hok|lia].
Qed.

Lemma generate_stops_at_first_failure_witness :
  fst (generate droppingSecond 10 0 ["a"; "b"; "c"; "d"; "e"] pairsWorld)
    = Throw (TypeError "fetch failed") /\
  length (sent (snd (generate droppingSecond 10 0 ["a"; "b"; "c"; "d"; "e"]
                       pairsWorld))) = 2.
Proof.
  destruct (generate droppingSecond 10 0 ["a"; "b"; "c"; "d"; "e"] pairsWorld)
    as [res w'] eqn:Hgen.
  pose proof Hgen as Hrun. vm_compute in Hrun. injection Hrun as Hres Hw.
  destruct (generate_stops_at_first_failure droppingSecond 10 0
              ["a"; "b"; "c"; "d"; "e"] pairsWorld w' res 1
              (batchRequest pairsConfig ["c"; "d"]) Hgen) as [Hrej _].
  - rewrite <- Hw. reflexivity.
  - destruct (Hrej (TypeError "fetch failed")) as [H1 H2].
    + rewrite <- Hw. reflexivity.
    + split; [exact H1|exact H2].
Defined.

(** ** How many requests *)

Lemma batchesOfSize_tail {A} n (chunks : list A) b b' bs :
  batchesOfSize n chunks (b :: b' :: bs) ->
  length b = n /\ batchesOfSize n (concat (b' :: bs)) (b' :: bs).
Proof.
  intros (Hcat & Hfull & Hlast). split.
  - apply (Hfull 0 b eq_refl). simpl. lia.
  - split; [reflexivity|]. split.
    + intros k b0 Hk Hlen. apply (Hfull (S k) b0 Hk). simpl in *. lia.
    + intros b0 Hb0. apply Hlast. exact Hb0.
Qed.

Lemma batchesOfSize_count {A} n (batches : list (list A)) :
  0 < n -> forall chunks,
  batchesOfSize n chunks batches ->
  length batches = (length chunks + n - 1) / n.
Proof.
  intros Hn. induction batches as [|b [|b' bs] IH]; intros chunks Hb.
  - destruct Hb as (<- & _). simpl. symmetry. apply Nat.div_small. lia.
  - destruct Hb as (<- & _ & Hlast). specialize (Hlast b eq_refl).
    simpl. rewrite app_nil_r.
    apply (Nat.div_unique _ _ 1 (length b - 1)); lia.
  - pose proof Hb as (<- & _).
    apply batchesOfSize_tail in Hb as [Hlen Htail].
    specialize (IH _ Htail).
    change (concat (b :: b' :: bs)) with (b ++ concat (b' :: bs)).
    rewrite length_app, Hlen.
    replace (n + length (concat (b' :: bs)) + n - 1)
      with (1 * n + (length (concat (b' :: bs)) + n - 1)) by lia.
    rewrite Nat.div_add_l by lia.
    change (length (b :: b' :: bs)) with (S (length (b' :: bs))).
    rewrite IH. lia.
Qed.

(** X11.  With a [chunkSize] that is a positive whole number [n], a callable
    splitter and a service that answers every request with one vector per
    input chunk, [generate] sends exactly ceil(chunks / n) requests, where
    chunks is the number of chunks the splitter produces for all the texts
    together -- provided no split and no batch holds more elements than the
    engine accepts as arguments of one call. *)
Theorem generate_request_count (svc : Service) (this : nat)
    (texts : list string) (w : World) (c : JsObject)
    (f : string -> list string) (q : Q) (n fuel : nat) :
  configOf w this = Some c ->
  prop c "splitter" = JFun f ->
  prop c "chunkSize" = JNum (Fin q) -> q == inject_Z (Z.of_nat n) -> 0 < n ->
  answersPerChunk svc ->
  splitsFit f texts w ->
  (N.of_nat (Nat.min n (length (concat (map f texts)))) <= maxArguments w)%N ->
  length (concat (map f texts)) < fuel ->
  length (sent (snd (generate svc fuel this texts w)))
  = length (sent w) + (length (concat (map f texts)) + n - 1) / n.
Proof.
  intros Hc Hf Hcs Hq Hn Hsvc Hfit Hmax Hfuel.
  destruct (generate_whole_chunkSize svc this texts w c f q n fuel
              Hc Hf Hcs Hq Hn Hsvc Hfit Hmax Hfuel)
    as (reqs & replies & -> & Hbatches & _).
  simpl. rewrite length_app. f_equal.
  rewrite <- (batchesOfSize_count n _ Hn _ Hbatches). now rewrite length_map.
Qed.

Lemma generate_request_count_witness :
  length (sent (snd (generate echoService 10 0 ["a"; "b"; "c"; "d"; "e"]
                       pairsWorld))) = 3.
Proof.
  apply (generate_request_count echoService 0
           ["a"; "b"; "c"; "d"; "e"] pairsWorld pairsConfig
           (fun text => [text]) 2%Q 2 10).
  - reflexivity.
  - reflexivity.
  - reflexivity.
  - reflexivity.
  - lia.
  - exact answersPerChunk_echoService.
  - repeat constructor; simpl; lia.
  - simpl. lia.
  - simpl. lia.
Defined.

(** ** A [chunkSize] of [Infinity] *)

Lemma slice_from_zero_to_infinity {A} (arr : list A) :
  slice arr Num.zero PosInfinity = arr.
Proof.
  unfold slice, Num.zero.
  rewrite (toIntegerOrInfinity_of_nat 0 0) by reflexivity.
  rewrite clampIndex_of_nat. simpl. rewrite Nat.sub_0_r. now apply take_ge.
Qed.

(** X12.  [Infinity] is a valid [chunkSize], and with it [generate] sends
    all the chunks in a single request and returns the vectors of that one
    reply -- provided no split, and not the chunk list as a whole, holds
    more elements than the engine accepts as arguments of one call. *)
Theorem generate_infinite_chunkSize (svc : Service)
    (embed : string -> Embedding) (this : nat) (texts : list string)
    (w : World) (c : JsObject) (f : string -> list string) (fuel : nat) :
  configOf w this = Some c ->
  prop c "splitter" = JFun f -> prop c "chunkSize" = JNum PosInfinity ->
  answersWith embed svc -> splitsFit f texts w ->
  (N.of_nat (length (concat (map f texts))) <= maxArguments w)%N ->
  concat (map f texts) <> [] ->
  isPositiveNumber (prop c "chunkSize") = true /\
  generate svc (S (S fuel)) this texts w
  = (Return (map embed (concat (map f texts))),
     withRequest w (batchRequest c (concat (map f texts)))).
Proof.
  intros Hc Hf Hcs Hsvc Hfit Hmax Hne. split; [now rewrite Hcs|].
  unfold generate, bind.
  rewrite (splitTexts_splitter this texts [] w c f Hc Hf Hfit). simpl app.
  set (chunks := concat (map f texts)) in *.
  assert (Hlt : Num.ltb Num.zero (Num.of_nat (length chunks)) = true).
  { rewrite (ltb_of_nat 0 0) by reflexivity. apply Nat.ltb_lt.
    destruct chunks; [contradiction|simpl; lia]. }
  rewrite (batchLoop_iteration svc this chunks (S fuel) Num.zero PosInfinity
             [] w c Hc Hlt) by (intros w'; now rewrite Hcs).
  cbv zeta. rewrite slice_from_zero_to_infinity.
  destruct (Hsvc (sent w) (batchRequest c chunks)) as (r & -> & -> & ->).
  simpl input. rewrite length_map.
  replace (maxArguments w <? N.of_nat (length chunks))%N with false
    by (symmetry; apply N.ltb_ge; exact Hmax).
  reflexivity.
Qed.

Lemma generate_infinite_chunkSize_witness :
  new (Some infiniteChunkSizeConfig) emptyWorld
    = (Return 0, infiniteChunkSizeWorld) /\
  generate echoService 2 0 ["a"; "b"; "c"] infiniteChunkSizeWorld
  = (Return (map embedLength ["a"; "b"; "c"]),
     withRequest infiniteChunkSizeWorld
       (batchRequest infiniteChunkSizeConfig ["a"; "b"; "c"])).
Proof.
  split; [reflexivity|].
  apply (generate_infinite_chunkSize echoService embedLength 0
           ["a"; "b"; "c"] infiniteChunkSizeWorld infiniteChunkSizeConfig
           (fun text => [text]) 0).
  - reflexivity.
  - reflexivity.
  - reflexivity.
  - intros received req. eexists. split; [reflexivity|]. split; reflexivity.
  - repeat constructor; simpl; lia.
  - simpl. lia.
  - discriminate.
Defined.

(** ** The fields [generate] does not read *)

Lemma batchLoop_unmodelled svc this chunks fuel i embeddings w c :
  configOf w this = Some c ->
  Num.ltb i (Num.of_nat (length chunks)) = true ->
  (forall w', addValue i (prop c "chunkSize") w' = (Unmodelled, w')) ->
  batchLoop svc this chunks (S fuel) i embeddings w = (Unmodelled, w).
Proof.
  intros Hc Hlt Hadd. simpl. rewrite Hlt. unfold bind.
  now rewrite (readConfigProp_configOf this "chunkSize" w c Hc), Hadd.
Qed.

Lemma addValue_cases i v :
  (exists i', forall w, addValue i v w = (Return i', w)) \/
  (forall w, addValue i v w = (Unmodelled, w)).
Proof. destruct v; simpl; eauto. Qed.

Lemma batchLoop_same_fields svc this1 this2 chunks c1 c2 :
  (forall k, k ∈ generateFields -> prop c1 k = prop c2 k) ->
  forall fuel i embeddings w1 w2,
    configOf w1 this1 = Some c1 -> configOf w2 this2 = Some c2 ->
    sent w1 = sent w2 -> maxArguments w1 = maxArguments w2 ->
    fst (batchLoop svc this1 chunks fuel i embeddings w1)
    = fst (batchLoop svc this2 chunks fuel i embeddings w2) /\
    sent (snd (batchLoop svc this1 chunks fuel i embeddings w1))
    = sent (snd (batchLoop svc this2 chunks fuel i embeddings w2)).
Proof.
  intros Hsame.
  assert (Hcs : prop c1 "chunkSize" = prop c2 "chunkSize")
    by (apply Hsame, list_elem_of_In; simpl; tauto).
  assert (Hreq : forall batch, batchRequest c1 batch = batchRequest c2 batch).
  { intros batch. unfold batchRequest.
    rewrite (Hsame "aiServiceUrl"), (Hsame "model"), (Hsame "encodingFormat");
      [reflexivity| | |]; apply list_elem_of_In; simpl; tauto. }
  induction fuel as [|fuel IH]; intros i embeddings w1 w2 Hc1 Hc2 Hsent Hmax;
    [now split|].
  destruct (Num.ltb i (Num.of_nat (length chunks))) eqn:Hlt.
  2:{ rewrite !batchLoop_exit by exact Hlt. now split. }
  destruct (addValue_cases i (prop c1 "chunkSize")) as [[i' Hadd]|Hadd].
  - rewrite (batchLoop_iteration svc this1 chunks fuel i i' embeddings w1 c1
               Hc1 Hlt Hadd).
    rewrite Hcs in Hadd.
    rewrite (batchLoop_iteration svc this2 chunks fuel i i' embeddings w2 c2
               Hc2 Hlt Hadd).
    cbv zeta. rewrite Hreq, Hsent, Hmax.
    destruct (svc (sent w2) (batchRequest c2 (slice chunks i i'))) as [e|r].
    + simpl. now rewrite Hsent.
    + destruct (ok r).
      * destruct (maxArguments w2 <? N.of_nat (length (data r)))%N.
        -- simpl. now rewrite Hsent.
        -- apply IH; [exact Hc1|exact Hc2| |exact Hmax]. simpl.
           now rewrite Hsent.
      * simpl. now rewrite Hsent.
  - rewrite (batchLoop_unmodelled svc this1 chunks fuel i embeddings w1 c1
               Hc1 Hlt Hadd).
    rewrite Hcs in Hadd.
    rewrite (batchLoop_unmodelled svc this2 chunks fuel i embeddings w2 c2
               Hc2 Hlt Hadd).
    now split.
Qed.

Lemma splitTexts_same_splitter this1 this2 texts c1 c2 w1 w2 :
  configOf w1 this1 = Some c1 -> configOf w2 this2 = Some c2 ->
  prop c1 "splitter" = prop c2 "splitter" ->
  maxArguments w1 = maxArguments w2 ->
  forall chunks, exists res,
    splitTexts this1 texts chunks w1 = (res, w1) /\
    splitTexts this2 texts chunks w2 = (res, w2).
Proof.
  intros Hc1 Hc2 Hf Hmax.
  induction texts as [|text texts IH]; intros chunks; simpl.
  - eexists. split; reflexivity.
  - unfold bind.
    rewrite (readConfigProp_configOf this1 "splitter" w1 c1 Hc1),
      (readConfigProp_configOf this2 "splitter" w2 c2 Hc2), Hf.
    destruct (prop c2 "splitter"); try (eexists; split; reflexivity).
    unfold push. rewrite Hmax.
    destruct (_ <? _)%N; [eexists; split; reflexivity|apply IH].
Qed.

(** X13.  [generate] reads only [splitter], [chunkSize], [aiServiceUrl],
    [model] and [encodingFormat] of the stored configuration: two objects
    whose configurations agree on these five fields end a call on the same
    texts in the same way and send the same requests, whatever their
    [chunkOverlap] and [chunkStrategy] (the two worlds being worlds of one
    engine, with the same requests sent before). *)
Theorem generate_ignores_unread_fields (svc : Service) (fuel this1 this2 : nat)
    (texts : list string) (w1 w2 : World) (c1 c2 : JsObject) :
  configOf w1 this1 = Some c1 -> configOf w2 this2 = Some c2 ->
  sent w1 = sent w2 -> maxArguments w1 = maxArguments w2 ->
  (forall k, k ∈ generateFields -> prop c1 k = prop c2 k) ->
  fst (generate svc fuel this1 texts w1) = fst (generate svc fuel this2 texts w2) /\
  sent (snd (generate svc fuel this1 texts w1))
  = sent (snd (generate svc fuel this2 texts w2)).
Proof.
  intros Hc1 Hc2 Hsent Hmax Hsame. unfold generate, bind.
  destruct (splitTexts_same_splitter this1 this2 texts c1 c2 w1 w2 Hc1 Hc2
              (Hsame "splitter" ltac:(apply list_elem_of_In; simpl; tauto))
              Hmax [])
    as (res & -> & ->).
  destruct res as [chunks|e| |]; try (now split).
  now apply (batchLoop_same_fields svc this1 this2 chunks c1 c2 Hsame).
Qed.

Lemma generate_ignores_unread_fields_witness :
  fst (generate echoService 10 0 ["a"; "b"] validWorld)
  = fst (generate echoService 10 0 ["a"; "b"]
           (withObject emptyWorld
              (configured (<["chunkOverlap" := JNum (Fin 63)]>
                             (delete "chunkStrategy" validConfig))))) /\
  sent (snd (generate echoService 10 0 ["a"; "b"] validWorld))
  = sent (snd (generate echoService 10 0 ["a"; "b"]
                 (withObject emptyWorld
                    (configured (<["chunkOverlap" := JNum (Fin 63)]>
                                   (delete "chunkStrategy" validConfig)))))).
Proof.
  apply (generate_ignores_unread_fields echoService 10 0 0 ["a"; "b"]
           validWorld _ validConfig
           (<["chunkOverlap" := JNum (Fin 63)]>
              (delete "chunkStrategy" validConfig))).
  - reflexivity.
  - reflexivity.
  - reflexivity.
  - reflexivity.
  - intros k Hk. unfold generateFields in Hk.
    repeat (apply elem_of_cons in Hk as [->|Hk]; [reflexivity|]).
    now apply elem_of_nil in Hk.
Defined.

(** ** Rebuilding from [getConfig] *)

Lemma getConfig_Return_inv this w o :
  getConfig this w = (Return o, w) ->
  exists c, configOf w this = Some c /\
    o = list_to_map (map (fun k => (k, prop c k)) persistedFields).
Proof.
  intros H. destruct (configOf w this) as [c|] eqn:Hc.
  - exists c. split; [reflexivity|].
    apply configOf_Some_lookup in Hc as (i & Hi & Hc).
    rewrite (getConfig_configured this w i c Hi Hc) in H. congruence.
  - unfold getConfig, bind in H.
    rewrite (readConfigProp_unconfigured this "aiServiceUrl" w Hc) in H.
    discriminate H.
Qed.

Lemma wellConfigured_configOf w this c :
  wellConfigured w -> configOf w this = Some c -> accepted c.
Proof.
  intros Hw (o & Ho & Hc)%configOf_Some_lookup.
  destruct (Hw this o Ho) as [Hn|(c' & Hc' & Hacc)]; congruence.
Qed.

(** X14.  The object [getConfig] returns can be fed back to
    [buildFromConfig]: if the configuration an object holds passes
    [validateConfig] (as it did when it was stored, and does as long as the
    caller has not changed it into an invalid one) and [getConfig] returns
    [o], then [buildFromConfig(o)] succeeds and [getConfig] on the object it
    builds returns [o] again.  The rebuilt object has no splitter, so its
    [generate] rejects every non-empty list of texts with a [TypeError]. *)
Theorem rebuild_from_getConfig (this : nat) (w : World) (c o : JsObject) :
  configOf w this = Some c -> accepted c ->
  getConfig this w = (Return o, w) ->
  exists built w',
    buildFromConfig this o w = (Return built, w') /\
    getConfig built w' = (Return o, w') /\
    forall svc fuel text texts,
      generate svc fuel built (text :: texts) w'
      = (Throw (TypeError "this.config.splitter is not a function"), w').
Proof.
  intros Hc Hacc (c' & Hc' & ->)%getConfig_Return_inv.
  assert (c' = c) as -> by congruence.
  specialize (Hacc 0 emptyWorld).
  apply validateConfig_Return_fields in Hacc
    as (Hurl & Hmodel & Hformat & Hsize & Hoverlap & Hstrategy & _).
  set (o := list_to_map (map (fun k => (k, prop c k)) persistedFields)
         : JsObject).
  assert (Ho : accepted o).
  { apply (accepted_intro 0 _ emptyWorld), validateConfig_Return_fields.
    repeat split; assumption || reflexivity. }
  exists (length (heap w)), (withObject w (configured o)).
  unfold buildFromConfig. split; [now apply new_accepted|].
  assert (Hco : configOf (withObject w (configured o)) (length (heap w))
                = Some o).
  { apply (configOf_lookup _ _ (configured o));
      [apply lookup_withObject_new|reflexivity]. }
  split.
  - apply configOf_Some_lookup in Hco as (i & Hi & Hci).
    rewrite (getConfig_configured _ _ i o Hi Hci). reflexivity.
  - intros svc fuel text texts. unfold generate, bind. simpl. unfold bind.
    rewrite (readConfigProp_configOf _ "splitter" _ o Hco). reflexivity.
Qed.

Lemma rebuild_from_getConfig_witness :
  exists built w',
    buildFromConfig 0
      (list_to_map (map (fun k => (k, prop validConfig k)) persistedFields))
      validWorld = (Return built, w') /\
    getConfig built w'
    = (Return (list_to_map
                 (map (fun k => (k, prop validConfig k)) persistedFields)), w') /\
    forall svc fuel text texts,
      generate svc fuel built (text :: texts) w'
      = (Throw (TypeError "this.config.splitter is not a function"), w').
Proof.
  apply (rebuild_from_getConfig 0 validWorld validConfig).
  - reflexivity.
  - apply (accepted_intro 0 _ emptyWorld). reflexivity.
  - reflexivity.
Defined.

(** ** Objects are never modified *)

(** X15.  No call ever changes an object that exists: whatever sequence of
    constructions, [buildFromConfig], [getConfig], [validateConfig],
    [validateConfigUpdate], [generate] and [generateForQueries] calls a
    program makes, each object keeps the configuration (or the lack of one)
    it was constructed with.  In particular an accepted update is not
    applied, and an unconfigured object stays unconfigured. *)
Theorem objects_never_change (cs : list Call) (w : World) (l : nat)
    (o : Instance) :
  heap w !! l = Some o -> heap (afterAll cs w) !! l = Some o.
Proof.
  revert w. induction cs as [|c cs IH]; intros w Hl; [exact Hl|].
  simpl. apply IH. now apply after_keeps_objects.
Qed.

Lemma objects_never_change_witness :
  heap (afterAll [CallValidateConfigUpdate 0 chunkSizeOnly;
                  CallBuildFromConfig 0 pairsConfig;
                  CallGenerate echoService 10 0 ["a"; "b"; "c"]]
          validWorld) !! 0
  = Some (configured validConfig).
Proof. apply objects_never_change. reflexivity. Defined.

(** ** What a successful call returns *)

Lemma batchLoop_returns_replies svc this chunks fuel :
  forall i embeddings w vectors w',
    batchLoop svc this chunks fuel i embeddings w = (Return vectors, w') ->
    exists reqs replies,
      sent w' = sent w ++ reqs /\
      vectors = embeddings ++ concat (map data replies) /\
      Forall2 (fun req r => ok r = true) reqs replies /\
      forall j req r,
        reqs !! j = Some req -> replies !! j = Some r ->
        svc (sent w ++ take j reqs) req = Responded r.
Proof.
  induction fuel as [|fuel IH]; intros i embeddings w vectors w' H;
    [discriminate H|].
  destruct (Num.ltb i (Num.of_nat (length chunks))) eqn:Hlt.
  2:{ rewrite (batchLoop_exit _ _ _ _ _ _ _ Hlt) in H. injection H as <- <-.
      exists [], []. simpl. rewrite !app_nil_r.
      repeat split; [constructor|]. intros j req r Hj.
      now rewrite lookup_nil in Hj. }
  destruct (batchLoop_iteration_cases svc this chunks i w Hlt)
    as [[res0 Hres]|(c & i' & Hc & Hadd)].
  { exfalso. pose proof (Hres fuel embeddings) as H1.
    pose proof (Hres 0 embeddings) as H0. rewrite H in H1.
    injection H1 as <- <-. simpl in H0. rewrite Hlt in H0. unfold bind in H0.
    destruct (readConfigProp this "chunkSize" w') as [[v| | |] w1];
      try discriminate H0.
    destruct (addValue i v w1) as [[x| | |] w2]; try discriminate H0.
    destruct (readConfigProp this "aiServiceUrl" w2) as [[v1| | |] w3];
      try discriminate H0.
    destruct (readConfigProp this "model" w3) as [[v2| | |] w4];
      try discriminate H0.
    destruct (readConfigProp this "encodingFormat" w4) as [[v3| | |] w5];
      try discriminate H0.
    destruct (fetch svc _ w5) as [[r| | |] w6]; try discriminate H0.
    destruct (negb (ok r)); [discriminate H0|].
    destruct (push embeddings (data r) w6) as [[pushed| | |] w6'];
      try discriminate H0.
    destruct (readConfigProp this "chunkSize" w6') as [[v4| | |] w7];
      try discriminate H0.
    destruct (addValue i v4 w7) as [[x'| | |] w8]; discriminate H0. }
  rewrite (batchLoop_iteration _ _ _ _ _ _ _ _ _ Hc Hlt Hadd) in H.
  cbv zeta in H.
  set (req := batchRequest c (slice chunks i i')) in *.
  destruct (svc (sent w) req) as [e|r] eqn:Hsvc; [discriminate H|].
  destruct (ok r) eqn:Hok; [|discriminate H].
  destruct (maxArguments w <? N.of_nat (length (data r)))%N;
    [discriminate H|].
  apply IH in H as (reqs & replies & Hsent & -> & Hall & Hreplies).
  exists (req :: reqs), (r :: replies). split.
  { rewrite Hsent. simpl. now rewrite <- app_assoc. }
  split; [simpl; now rewrite <- app_assoc|].
  split; [now constructor|].
  intros [|j] req0 r0 Hj Hr.
  - injection Hj as <-. injection Hr as <-. simpl. now rewrite app_nil_r.
  - simpl in Hj, Hr. specialize (Hreplies j req0 r0 Hj Hr). simpl in Hreplies.
    rewrite <- app_assoc in Hreplies. exact Hreplies.
Qed.

(** X16.  When [generate] resolves, its result is the concatenation, in
    request order, of the [data] of the replies, each of which had a success
    status.  The number of vectors in a reply is not compared with the size
    of the batch: what the service sends is returned as it is. *)
Theorem generate_returns_replies (svc : Service) (fuel this : nat)
    (texts : list string) (w w' : World) (vectors : list Embedding) :
  generate svc fuel this texts w = (Return vectors, w') ->
  exists reqs replies,
    sent w' = sent w ++ reqs /\
    vectors = concat (map data replies) /\
    Forall2 (fun req r => ok r = true) reqs replies /\
    forall j req r,
      reqs !! j = Some req -> replies !! j = Some r ->
      svc (sent w ++ take j reqs) req = Responded r.
Proof.
  unfold generate, bind.
  pose proof (splitTexts_world this texts [] w) as Hw.
  destruct (splitTexts this texts [] w) as [[chunks|e| |] w1]; simpl in Hw;
    subst w1; try discriminate.
  intros H. apply batchLoop_returns_replies in H.
  exact H.
Qed.

Lemma generate_returns_replies_witness :
  exists reqs replies,
    sent (snd (generate echoService 10 0 ["a"; "b"; "c"] pairsWorld))
    = sent pairsWorld ++ reqs /\
    [embedLength "a"; embedLength "b"; embedLength "c"]
    = concat (map data replies) /\
    Forall2 (fun req r => ok r = true) reqs replies /\
    forall j req r,
      reqs !! j = Some req -> replies !! j = Some r ->
      echoService (sent pairsWorld ++ take j reqs) req = Responded r.
Proof.
  apply (generate_returns_replies echoService 10 0 ["a"; "b"; "c"] pairsWorld).
  vm_compute. reflexivity.
Defined.

(** ** The messages of the validators *)

Lemma validateRequiredField_Left_message p n v e :
  validateRequiredField p n v = Left e ->
  e = Error (n +:+ " is required") \/ e = Error (n +:+ " is invalid").
Proof.
  unfold validateRequiredField, E.fromNullable, E.fromPredicate.
  destruct (isNullish v); simpl; [|destruct (p v)]; intros [= <-]; eauto.
Qed.

Lemma validateOptionalField_Left_message p n v e :
  validateOptionalField p n v = Left e -> e = Error (n +:+ " is invalid").
Proof.
  unfold validateOptionalField, O.fromNullable, E.fromPredicate.
  destruct (isNullish v); simpl; [|destruct (p v)]; intros [= <-]; eauto.
Qed.

Lemma validateFieldUpdate_Left_message n v e :
  validateFieldUpdate n v = Left e ->
  e = Error ("Updating " +:+ n +:+ " is not allowed").
Proof.
  unfold validateFieldUpdate, O.fromNullable.
  destruct (isNullish v); simpl; intros [= <-]; eauto.
Qed.

(** X17.  The validators throw nothing but their field messages.  An error
    of [validateConfig] is ["<field> is required"] for [aiServiceUrl] or
    [model], or ["<field> is invalid"] for one of the seven fields.  An
    error of [validateConfigUpdate] is ["Updating <field> is not allowed"]
    for one of the five immutable fields, or ["chunkSize is invalid"], or
    ["splitter is invalid"]. *)
Theorem validators_messages (this : nat) (config : JsObject) (w w' : World)
    (e : JsError) :
  (validateConfig this config w = (Throw e, w') ->
   exists f, f ∈ fieldOrder /\
     (e = Error (f +:+ " is invalid") \/
      (e = Error (f +:+ " is required") /\
       (f = "aiServiceUrl" \/ f = "model")))) /\
  (validateConfigUpdate this config w = (Throw e, w') ->
   (exists f, f ∈ immutableFields /\
      e = Error ("Updating " +:+ f +:+ " is not allowed")) \/
   e = Error "chunkSize is invalid" \/ e = Error "splitter is invalid").
Proof.
  split.
  - rewrite validateConfig_raise. unfold raise. intros H.
    destruct (sequenceS (validateConfig_seq config)) as [e'|s] eqn:Hseq;
      [|discriminate]. injection H as -> _.
    apply sequenceS_Left_In in Hseq as [k Hin]. simpl in Hin.
    destruct Hin as [[= _ Hin]|Hin].
    { exists "aiServiceUrl". split; [apply list_elem_of_In; simpl; tauto|].
      apply validateRequiredField_Left_message in Hin as [->| ->]; eauto. }
    destruct Hin as [[= _ Hin]|Hin].
    { exists "model". split; [apply list_elem_of_In; simpl; tauto|].
      apply validateRequiredField_Left_message in Hin as [->| ->]; eauto. }
    repeat (destruct Hin as [[= _ Hin]|Hin];
            [eexists; split;
             [|left; exact (validateOptionalField_Left_message _ _ _ _ Hin)];
             apply list_elem_of_In; simpl; tauto|]).
    destruct Hin.
  - rewrite validateConfigUpdate_raise. unfold raise. intros H.
    destruct (sequenceS (validateConfigUpdate_seq config)) as [e'|s] eqn:Hseq;
      [|discriminate]. injection H as -> _.
    apply sequenceS_Left_In in Hseq as [k Hin]. simpl in Hin.
    repeat (destruct Hin as [[= _ Hin]|Hin];
            [first
               [left; eexists; split;
                [|exact (validateFieldUpdate_Left_message _ _ _ Hin)];
                apply list_elem_of_In; simpl; tauto
               |right; left;
                exact (validateOptionalField_Left_message _ _ _ _ Hin)
               |right; right;
                exact (validateOptionalField_Left_message _ _ _ _ Hin)]|]).
    destruct Hin.
Qed.

Lemma validators_messages_witness :
  (exists f, f ∈ fieldOrder /\
     (Error "aiServiceUrl is invalid" = Error (f +:+ " is invalid") \/
      (Error "aiServiceUrl is invalid" = Error (f +:+ " is required") /\
       (f = "aiServiceUrl" \/ f = "model")))) /\
  ((exists f, f ∈ immutableFields /\
      Error "chunkSize is invalid"
      = Error ("Updating " +:+ f +:+ " is not allowed")) \/
   Error "chunkSize is invalid" = Error "chunkSize is invalid" \/
   Error "chunkSize is invalid" = Error "splitter is invalid").
Proof.
  split.
  - apply (proj1 (validators_messages 0 badUrlNoModel emptyWorld emptyWorld
                    (Error "aiServiceUrl is invalid"))). reflexivity.
  - apply (proj2 (validators_messages 0 newUrlBadChunkSize emptyWorld
                    emptyWorld (Error "chunkSize is invalid"))). reflexivity.
Defined.

(** ** The two number predicates *)

Lemma isPositiveNumber_Fin q : isPositiveNumber (JNum (Fin q)) = (0 <? Qnum q)%Z.
Proof.
  unfold isPositiveNumber, Num.gtb, Num.ltb, Num.zero, Num.Qltb. simpl.
  now rewrite Z.mul_1_r.
Qed.

Lemma isNonNegativeNumber_Fin q :
  isNonNegativeNumber (JNum (Fin q)) = negb (Qnum q <? 0)%Z.
Proof.
  unfold isNonNegativeNumber, Num.geb, Num.ltb, Num.zero, Num.Qltb. simpl.
  now rewrite Z.mul_1_r.
Qed.

(** X18.  Every value accepted as a [chunkSize] is accepted as a
    [chunkOverlap], and the values accepted as a [chunkOverlap] but not as a
    [chunkSize] are exactly the numbers equal to zero; [NaN] and values that
    are not numbers satisfy neither predicate. *)
Theorem chunkSize_and_chunkOverlap_predicates (v : JsValue) :
  (isPositiveNumber v = true -> isNonNegativeNumber v = true) /\
  (isNonNegativeNumber v = true /\ isPositiveNumber v = false <->
   exists q, v = JNum (Fin q) /\ q == 0) /\
  (isNonNegativeNumber v = true -> exists x, v = JNum x /\ x <> NaN).
Proof.
  destruct v as [| |b|x|s|f|];
    try (split; [discriminate|split; [split; [intros [H _]; discriminate H
                                              |intros (q & H & _); discriminate H]
                                     |discriminate]]).
  destruct x as [| |q|].
  - split; [discriminate|]. split; [|discriminate].
    split; [intros [H _]; discriminate H|intros (q & H & _); discriminate H].
  - split; [discriminate|]. split; [|discriminate].
    split; [intros [H _]; discriminate H|intros (q & H & _); discriminate H].
  - rewrite isPositiveNumber_Fin, isNonNegativeNumber_Fin.
    split; [|split].
    + intros H%Z.ltb_lt. apply negb_true_iff, Z.ltb_ge. lia.
    + split.
      * intros [H1%negb_true_iff%Z.ltb_ge H2%Z.ltb_ge]. exists q.
        split; [reflexivity|]. unfold Qeq. simpl. lia.
      * intros (q' & [= <-] & Hq). unfold Qeq in Hq. simpl in Hq.
        split; [apply negb_true_iff, Z.ltb_ge|apply Z.ltb_ge]; lia.
    + intros _. exists (Fin q). split; [reflexivity|discriminate].
  - split; [reflexivity|]. split.
    + split; [intros [_ H]; discriminate H|intros (q & H & _); discriminate H].
    + intros _. exists PosInfinity. split; [reflexivity|discriminate].
Qed.

Lemma chunkSize_and_chunkOverlap_predicates_witness :
  isNonNegativeNumber (JNum (Fin 64)) = true /\
  isNonNegativeNumber (JNum (Fin 0)) = true /\
  isPositiveNumber (JNum (Fin 0)) = false.
Proof.
  split.
  - apply (proj1 (chunkSize_and_chunkOverlap_predicates (JNum (Fin 64)))).
    reflexivity.
  - apply (proj1 (proj2 (chunkSize_and_chunkOverlap_predicates (JNum (Fin 0))))).
    exists 0%Q. split; reflexivity.
Defined.

(** ** The bundle names *)

Lemma string_length_append (s t : string) :
  String.length (s +:+ t) = String.length s + String.length t.
Proof. induction s as [|a s IH]; simpl; [reflexivity|now rewrite IH]. Qed.

Lemma string_append_inj_r (s1 s2 t : string) :
  s1 +:+ t = s2 +:+ t -> s1 = s2.
Proof.
  revert s2. induction s1 as [|a s1 IH]; intros [|b s2] H.
  - reflexivity.
  - apply (f_equal String.length) in H. simpl in H.
    rewrite !string_length_append in H. simpl in H. lia.
  - apply (f_equal String.length) in H. simpl in H.
    rewrite !string_length_append in H. simpl in H. lia.
  - simpl in H. injection H as -> H. f_equal. now apply IH.
Qed.

(** X19.  [fileName] gives different module formats different bundle names,
    so the bundles of one build do not overwrite each other. *)
Theorem fileName_injective (format1 format2 : string) :
  fileName format1 = fileName format2 -> format1 = format2.
Proof.
  unfold fileName. intros H. simpl in H.
  repeat (injection H as H).
  change (format1 +:+ ".js" = format2 +:+ ".js") in H.
  now apply string_append_inj_r in H.
Qed.

Lemma fileName_injective_witness : "es" = "es".
Proof. apply fileName_injective. reflexivity. Defined.

(** ** More elements than a call takes *)

Lemma splitTexts_oversized this texts1 text texts2 w c f :
  configOf w this = Some c -> prop c "splitter" = JFun f ->
  splitsFit f texts1 w ->
  (maxArguments w < N.of_nat (length (f text)))%N ->
  forall chunks,
    splitTexts this (texts1 ++ text :: texts2) chunks w
    = (Throw (RangeError "Maximum call stack size exceeded"), w).
Proof.
  intros Hc Hf Hfit Hbig.
  induction Hfit as [|text1 texts1 Htext1 _ IH]; intros chunks; simpl;
    unfold bind;
    rewrite (readConfigProp_configOf this "splitter" w c Hc), Hf.
  - now rewrite (push_overflow chunks (f text) w Hbig).
  - rewrite (push_fits chunks (f text1) w Htext1). apply IH.
Qed.

(** X20.  The splitter's output is spread into the arguments of [push]: when
    a text is split into more chunks than the engine accepts as arguments of
    one call (the splits of the texts before it being within that bound),
    [generate] is rejected with a [RangeError], whatever follows in the
    list, and no request is sent. *)
Theorem generate_rejects_oversized_split (svc : Service) (fuel this : nat)
    (texts1 : list string) (text : string) (texts2 : list string) (w : World)
    (c : JsObject) (f : string -> list string) :
  configOf w this = Some c -> prop c "splitter" = JFun f ->
  splitsFit f texts1 w ->
  (maxArguments w < N.of_nat (length (f text)))%N ->
  generate svc fuel this (texts1 ++ text :: texts2) w
  = (Throw (RangeError "Maximum call stack size exceeded"), w).
Proof.
  intros Hc Hf Hfit Hbig. unfold generate, bind.
  now rewrite (splitTexts_oversized this texts1 text texts2 w c f Hc Hf Hfit
                 Hbig []).
Qed.

Lemma generate_rejects_oversized_split_witness :
  generate echoService 10 0 ["a"; "bb"; "c"]
    (mkWorld [configured validConfig] [] 0)
  = (Throw (RangeError "Maximum call stack size exceeded"),
     mkWorld [configured validConfig] [] 0).
Proof.
  apply (generate_rejects_oversized_split echoService 10 0 [] "a" ["bb"; "c"]
           (mkWorld [configured validConfig] [] 0) validConfig
           (fun text => [text])).
  - reflexivity.
  - reflexivity.
  - constructor.
  - simpl. lia.
Defined.

Lemma batchLoop_oversized_reply svc this chunks fuel :
  forall i embeddings w res w',
    batchLoop svc this chunks fuel i embeddings w = (res, w') ->
    exists reqs, sent w' = sent w ++ reqs /\
      forall j req r,
        reqs !! j = Some req ->
        svc (sent w ++ take j reqs) req = Responded r -> ok r = true ->
        (maxArguments w < N.of_nat (length (data r)))%N ->
        S j = length reqs /\
        res = Throw (RangeError "Maximum call stack size exceeded").
Proof.
  assert (Hnone : forall (w : World) (res : Completion (list Embedding)),
            exists reqs, sent w = sent w ++ reqs /\
              forall j req r,
                reqs !! j = Some req ->
                svc (sent w ++ take j reqs) req = Responded r -> ok r = true ->
                (maxArguments w < N.of_nat (length (data r)))%N ->
                S j = length reqs /\
                res = Throw (RangeError "Maximum call stack size exceeded")).
  { intros w res. exists []. rewrite app_nil_r. split; [reflexivity|].
    intros j req r Hj. now rewrite lookup_nil in Hj. }
  induction fuel as [|fuel IH]; intros i embeddings w res w' H.
  - injection H as <- <-. apply Hnone.
  - destruct (Num.ltb i (Num.of_nat (length chunks))) eqn:Hlt.
    2:{ rewrite (batchLoop_exit _ _ _ _ _ _ _ Hlt) in H.
        injection H as <- <-. apply Hnone. }
    destruct (batchLoop_iteration_cases svc this chunks i w Hlt)
      as [[res0 Hres]|(c & i' & Hc & Hadd)].
    { rewrite Hres in H. injection H as <- <-. apply Hnone. }
    rewrite (batchLoop_iteration _ _ _ _ _ _ _ _ _ Hc Hlt Hadd) in H.
    cbv zeta in H.
    set (req := batchRequest c (slice chunks i i')) in *.
    assert (Hone : forall res0 : Completion (list Embedding),
              (forall r, svc (sent w) req = Responded r -> ok r = true ->
                 (maxArguments w < N.of_nat (length (data r)))%N ->
                 res0 = Throw (RangeError "Maximum call stack size exceeded")) ->
              exists reqs, sent (withRequest w req) = sent w ++ reqs /\
                forall j req0 r0,
                  reqs !! j = Some req0 ->
                  svc (sent w ++ take j reqs) req0 = Responded r0 ->
                  ok r0 = true ->
                  (maxArguments w < N.of_nat (length (data r0)))%N ->
                  S j = length reqs /\
                  res0 = Throw (RangeError "Maximum call stack size exceeded")).
    { intros res0 Hres0. exists [req]. split; [reflexivity|].
      intros [|j] req0 r0 Hj Hr0 Hok0 Hbig.
      - injection Hj as <-. simpl in Hr0. rewrite app_nil_r in Hr0.
        split; [reflexivity|]. exact (Hres0 r0 Hr0 Hok0 Hbig).
      - now rewrite lookup_cons, lookup_nil in Hj. }
    destruct (svc (sent w) req) as [e|r] eqn:Hsvc.
    + injection H as <- <-. apply Hone. intros r Hr. discriminate Hr.
    + destruct (ok r) eqn:Hok.
      * destruct (N.ltb_spec (maxArguments w) (N.of_nat (length (data r))))
          as [Hbig|Hfit].
        { injection H as <- <-. apply Hone. reflexivity. }
        apply IH in H as (reqs & Hsent & Hreqs).
        exists (req :: reqs). split.
        { rewrite Hsent. simpl. now rewrite <- app_assoc. }
        intros [|j] req0 r0 Hj Hr0 Hok0 Hbig.
        -- injection Hj as <-. simpl in Hr0. rewrite app_nil_r, Hsvc in Hr0.
           injection Hr0 as <-. lia.
        -- simpl in Hj, Hr0.
           replace (sent w ++ req :: take j reqs)
             with (sent (withRequest w req) ++ take j reqs) in Hr0
             by (simpl; now rewrite <- app_assoc).
           destruct (Hreqs j req0 r0 Hj Hr0 Hok0 Hbig) as [Hlen ->].
           split; [simpl; now rewrite Hlen|reflexivity].
      * injection H as <- <-. apply Hone. intros r0 [= <-] Hok0. congruence.
Qed.

(** X21.  The vectors of a reply are spread into the arguments of [push]
    too: when a request of [generate] is answered with a success status but
    with more vectors than the engine accepts as arguments of one call, the
    call is rejected with a [RangeError] and that request is the last one
    sent. *)
Theorem generate_rejects_oversized_reply (svc : Service) (fuel this : nat)
    (texts : list string) (w w' : World) (res : Completion (list Embedding))
    (j : nat) (req : Request) (r : Response) :
  generate svc fuel this texts w = (res, w') ->
  sent w' !! (length (sent w) + j) = Some req ->
  svc (take (length (sent w) + j) (sent w')) req = Responded r ->
  ok r = true ->
  (maxArguments w < N.of_nat (length (data r)))%N ->
  res = Throw (RangeError "Maximum call stack size exceeded") /\
  length (sent w') = S (length (sent w) + j).
Proof.
  intros Hgen Hreq Hsvc Hok Hbig.
  assert (exists reqs, sent w' = sent w ++ reqs /\
            forall j req r,
              reqs !! j = Some req ->
              svc (sent w ++ take j reqs) req = Responded r -> ok r = true ->
              (maxArguments w < N.of_nat (length (data r)))%N ->
              S j = length reqs /\
              res = Throw (RangeError "Maximum call stack size exceeded"))
    as (reqs & Hsent & Hreqs).
  { revert Hgen. unfold generate, bind.
    pose proof (splitTexts_world this texts [] w) as Hw.
    destruct (splitTexts this texts [] w) as [[chunks|e| |] w1]; simpl in Hw;
      subst w1; [apply batchLoop_oversized_reply| | |];
      intros [= <- <-]; exists []; rewrite app_nil_r;
      (split; [reflexivity|]); intros j0 req0 r0 Hj;
      now rewrite lookup_nil in Hj. }
  rewrite Hsent in Hreq, Hsvc.
  rewrite lookup_app_r in Hreq by lia.
  replace (length (sent w) + j - length (sent w)) with j in Hreq by lia.
  rewrite take_app_add in Hsvc.
  destruct (Hreqs j req r Hreq Hsvc Hok Hbig) as [Hlen ->].
  split; [reflexivity|]. rewrite Hsent, length_app. lia.
Qed.

Lemma generate_rejects_oversized_reply_witness :
  fst (generate echoService 10 0 ["a"; "b"; "c"]
         (mkWorld [configured pairsConfig] [] 1))
    = Throw (RangeError "Maximum call stack size exceeded") /\
  length (sent (snd (generate echoService 10 0 ["a"; "b"; "c"]
                       (mkWorld [configured pairsConfig] [] 1)))) = 1.
Proof.
  destruct (generate echoService 10 0 ["a"; "b"; "c"]
              (mkWorld [configured pairsConfig] [] 1))
    as [res w'] eqn:Hgen.
  pose proof Hgen as Hrun. vm_compute in Hrun. injection Hrun as Hres Hw.
  destruct (generate_rejects_oversized_reply echoService 10 0 ["a"; "b"; "c"]
              (mkWorld [configured pairsConfig] [] 1) w' res 0
              (batchRequest pairsConfig ["a"; "b"])
              (mkResponse 200 "OK" [embedLength "a"; embedLength "b"]) Hgen)
    as [H1 H2].
  - rewrite <- Hw. reflexivity.
  - rewrite <- Hw. reflexivity.
  - reflexivity.
  - simpl. lia.
  - split; [exact H1|exact H2].
Defined.

(** ** The caller's object *)

Lemma configOf_assign w this key value c :
  configOf w this = Some c ->
  configOf (assign this key value w) this = Some (<[key := value]> c).
Proof.
  intros (o & Ho & Hc)%configOf_Some_lookup. unfold configOf, assign.
  cbn [heap]. rewrite list_lookup_alter, Ho. cbn. rewrite Hc.
  now rewrite decide_True by reflexivity.
Qed.

Lemma getConfig_field (c : JsObject) (k : string) :
  k ∈ persistedFields ->
  (list_to_map (map (fun k => (k, prop c k)) persistedFields) : JsObject) !! k
  = Some (prop c k).
Proof.
  intros Hk. unfold persistedFields in Hk.
  repeat (apply elem_of_cons in Hk as [->|Hk]; [reflexivity|]).
  now apply elem_of_nil in Hk.
Qed.

(** X22.  The object stores the caller's configuration object, not a copy:
    after the caller assigns a persisted field of the object it passed to
    the constructor, [getConfig] reports the new value, valid or not, for
    that field and the stored values for the other five. *)
Theorem getConfig_reports_callers_changes (this : nat) (w : World)
    (c : JsObject) (key : string) (value : JsValue) :
  configOf w this = Some c -> key ∈ persistedFields ->
  exists o : JsObject,
    getConfig this (assign this key value w)
    = (Return o, assign this key value w) /\
    o !! key = Some value /\
    forall k, k ∈ persistedFields -> k <> key -> o !! k = Some (prop c k).
Proof.
  intros Hc Hkey.
  pose proof (configOf_assign w this key value c Hc)
    as (i & Hi & Hci)%configOf_Some_lookup.
  eexists. split; [exact (getConfig_configured _ _ i _ Hi Hci)|]. split.
  - rewrite (getConfig_field _ key Hkey). now rewrite prop_insert_eq.
  - intros k Hk Hne. rewrite (getConfig_field _ k Hk).
    rewrite prop_insert_ne by congruence. reflexivity.
Qed.

Lemma getConfig_reports_callers_changes_witness :
  exists o : JsObject,
    getConfig 0 tamperedWorld = (Return o, tamperedWorld) /\
    o !! "chunkSize" = Some (JNum (Fin (-1))) /\
    forall k, k ∈ persistedFields -> k <> "chunkSize" ->
      o !! k = Some (prop validConfig k).
Proof.
  apply (getConfig_reports_callers_changes 0 validWorld validConfig
           "chunkSize" (JNum (Fin (-1)))).
  - reflexivity.
  - apply list_elem_of_In. simpl. tauto.
Defined.
